(** * SortingCards: a depth-bounded parallel merge sort over playing cards

    A shallow embedding of [SortingCards.py] and the proofs of its
    specification.

    Part I is the program: Python results and values, the comparison of
    keys, [merge], the builtin [sorted], function objects and what
    reaches a worker process, [parallel_merge_sort],
    [get_optimal_max_depth], the cards and their keys, and a second
    reading of [merge] and [parallel_merge_sort] over a store of list
    objects.  Part II is the vocabulary of the specification.  Part III
    holds the proofs. *)

From Stdlib Require Import String Ascii.
From Stdlib Require Import List ZArith Lia Bool Arith DecimalString DecimalZ DecimalPos.
From Stdlib Require Import Permutation Sorted Wellfounded.
From Equations Require Import Equations.
Import ListNotations.

(** * Part I: the program *)

(** ** Results of Python calls *)

(** The exceptions the program can raise. *)
Inductive exn : Type :=
| KeyError
| TypeError
| IndexError
| PicklingError.

(** A call returns a value or raises. *)
Inductive result (X : Type) : Type :=
| Ok (x : X)
| Raise (e : exn).

Arguments Ok {X} x.
Arguments Raise {X} e.

Notation "x <- c ;; k" :=
  (match c with
   | Ok x => k
   | Raise e => Raise e
   end)
  (at level 61, c at next level, right associativity).

Definition succeeds {X} (r : result X) : Prop := exists x, r = Ok x.
Definition fails {X} (r : result X) : Prop := exists e, r = Raise e.

(** The test of a conditional, kept with the equation that records
    which way it went. *)
Definition inspect {X} (x : X) : {y : X | x = y} := exist _ x eq_refl.

(** [xs[i]] for a non-negative index. *)
Definition index {X} (xs : list X) (i : nat) : result X :=
  match nth_error xs i with
  | Some x => Ok x
  | None => Raise IndexError
  end.

(** ** Python values that occur as suits, ranks and key components *)

Inductive pyval : Type :=
| PInt (z : Z)
| PStr (s : string).

(** ** Comparison of keys

    [py_eq] is [==], [py_le] is [<=] and [py_lt] is [<].  Ordering
    comparisons may raise ([TypeError] between an int and a str);
    equality never does. *)
Class PyOrd (K : Type) : Type := {
  py_eq : K -> K -> bool;
  py_le : K -> K -> result bool;
  py_lt : K -> K -> result bool
}.

#[export] Instance PyOrd_Z : PyOrd Z := {
  py_eq := Z.eqb;
  py_le := fun a b => Ok (Z.leb a b);
  py_lt := fun a b => Ok (Z.ltb a b)
}.

(** Strings compare by code point, that is, bytewise on their UTF-8
    encoding. *)
Definition string_leb (s t : string) : bool :=
  match String.compare s t with
  | Gt => false
  | _ => true
  end.

Definition string_ltb (s t : string) : bool :=
  match String.compare s t with
  | Lt => true
  | _ => false
  end.

#[export] Instance PyOrd_pyval : PyOrd pyval := {
  py_eq := fun a b =>
    match a, b with
    | PInt x, PInt y => Z.eqb x y
    | PStr s, PStr t => String.eqb s t
    | _, _ => false
    end;
  py_le := fun a b =>
    match a, b with
    | PInt x, PInt y => Ok (Z.leb x y)
    | PStr s, PStr t => Ok (string_leb s t)
    | _, _ => Raise TypeError
    end;
  py_lt := fun a b =>
    match a, b with
    | PInt x, PInt y => Ok (Z.ltb x y)
    | PStr s, PStr t => Ok (string_ltb s t)
    | _, _ => Raise TypeError
    end
}.

(** Tuples of length two: the first position where the items differ
    (by [==]) decides; equal tuples are [<=] and not [<]. *)
#[export] Instance PyOrd_pair {K1 K2} `{PyOrd K1} `{PyOrd K2} : PyOrd (K1 * K2) := {
  py_eq := fun a b => py_eq (fst a) (fst b) && py_eq (snd a) (snd b);
  py_le := fun a b =>
    if negb (py_eq (fst a) (fst b)) then py_le (fst a) (fst b)
    else if negb (py_eq (snd a) (snd b)) then py_le (snd a) (snd b)
    else Ok true;
  py_lt := fun a b =>
    if negb (py_eq (fst a) (fst b)) then py_lt (fst a) (fst b)
    else if negb (py_eq (snd a) (snd b)) then py_lt (snd a) (snd b)
    else Ok false
}.

Section Engine.

Context {A K : Type} `{PyOrd K}.
Variable key : A -> result K.

(** ** [merge] *)

(** The [while] loop of [merge] over [l] (the source's [left]) and [r]
    (its [right]), with the cursors [i] and [j] and the list [merged]
    built so far; after the loop the two remainders [left[i:]] and
    [right[j:]] are appended. *)
Equations? merge_loop (l r : list A) (i j : nat) (merged : list A)
  : result (list A) by wf ((length l - i) + (length r - j)) lt :=
merge_loop l r i j merged
    with inspect ((i <? length l) && (j <? length r)) => {
  | exist _ true Hcond =>
      x <- index l i ;;
      kx <- key x ;;
      y <- index r j ;;
      ky <- key y ;;
      b <- py_le kx ky ;;
      if b
      then merge_loop l r (S i) j (merged ++ [x])
      else merge_loop l r i (S j) (merged ++ [y])
  | exist _ false _ => Ok (merged ++ skipn i l ++ skipn j r)
}.
Proof.
  all: apply andb_true_iff in Hcond; destruct Hcond as [Hi Hj].
  all: apply Nat.ltb_lt in Hi, Hj; lia.
Qed.

Definition merge (left right : list A) : result (list A) :=
  merge_loop left right 0 0 [].

(** ** The builtin [sorted(array, key=key)]

    [sorted] is Python's, not this program's.  The language promises
    that it calls [key] once on every element, in order, before it
    compares anything, that it compares keys with [<] only, that it
    returns a new list, and that the sort is stable.  The model is the
    stable insertion sort over the list decorated with its keys.  For
    keys that form a total order this is the only list a stable sort
    can return ([sorted_unique] in Part III); which comparisons the
    interpreter makes on other keys is not modelled. *)
Fixpoint decorate (array : list A) : result (list (K * A)) :=
  match array with
  | [] => Ok []
  | x :: rest =>
      k <- key x ;;
      d <- decorate rest ;;
      Ok ((k, x) :: d)
  end.

Fixpoint insort (p : K * A) (s : list (K * A)) : result (list (K * A)) :=
  match s with
  | [] => Ok [p]
  | q :: t =>
      b <- py_lt (fst q) (fst p) ;;
      if b
      then u <- insort p t ;; Ok (q :: u)
      else Ok (p :: q :: t)
  end.

Fixpoint sort_keyed (d : list (K * A)) : result (list (K * A)) :=
  match d with
  | [] => Ok []
  | p :: t => s <- sort_keyed t ;; insort p s
  end.

Definition sorted (array : list A) : result (list A) :=
  d <- decorate array ;;
  s <- sort_keyed d ;;
  Ok (map snd s).

End Engine.

(** ** Function objects and worker processes

    What is given as [key] is a function object: [call] is what a call
    of it does, and [picklable] is whether [pickle] can serialise it,
    as it must to reach a worker process.  A function defined by [def]
    at the top level of a module is pickled by its name; a [lambda]
    cannot be pickled. *)
Record pyfun (A K : Type) : Type := PyFun {
  call :> A -> result K;
  picklable : bool
}.

Arguments PyFun {A K} call picklable.
Arguments call {A K} p x.
Arguments picklable {A K} p.

(** A function defined by [def] at module level. *)
Definition Def {A K : Type} (f : A -> result K) : pyfun A K := PyFun f true.

(** A [lambda]. *)
Definition Lambda {A K : Type} (f : A -> result K) : pyfun A K := PyFun f false.

(** [executor.submit(parallel_merge_sort, part, key, max_depth - 1)], as
    the value its future will hold.  The call goes to a worker process
    pickled: [parallel_merge_sort] by its name, [part] and the depth
    by value (the elements are ints, strs or cards, which pickle), and
    [key] if it can be.  When [key] cannot be pickled the future holds
    [PicklingError] and the call is never run; otherwise the worker
    runs the call [task] on its copy of [part], and the future holds
    what the call returned or raised. *)
Definition submit {A K X : Type} (key : pyfun A K) (task : result X) : result X :=
  if picklable key then task else Raise PicklingError.

(** ** [parallel_merge_sort]

    The two halves are submitted to a [ProcessPoolExecutor], both
    before a result is awaited; the workers compute on copies and share
    nothing.  [left_future.result()] is awaited first: what the left
    future raises (the [PicklingError] of its submission included) is
    what reaches the caller. *)
Equations? parallel_merge_sort {A K : Type} `{PyOrd K} (key : pyfun A K)
    (array : list A) (max_depth : Z)
  : result (list A) by wf (Z.to_nat max_depth) lt :=
parallel_merge_sort key array max_depth
    with inspect ((length array <=? 1) || (max_depth <=? 0)%Z) => {
  | exist _ true _ => sorted key array
  | exist _ false Hrec =>
      let mid := length array / 2 in
      let left_part := firstn mid array in
      let right_part := skipn mid array in
      let left_future :=
        submit key (parallel_merge_sort key left_part (max_depth - 1)) in
      let right_future :=
        submit key (parallel_merge_sort key right_part (max_depth - 1)) in
      left_sorted <- left_future ;;
      right_sorted <- right_future ;;
      merge key left_sorted right_sorted
}.
Proof.
  all: pose proof (proj2 (proj1 (orb_false_iff _ _) Hrec)) as Hd.
  all: apply Z.leb_gt in Hd; lia.
Qed.

(** The default [key=lambda x: x] of [merge] and of
    [parallel_merge_sort]. *)
Definition identity_key {X : Type} : pyfun X X := Lambda (fun x => Ok x).

(** ** [get_optimal_max_depth] *)

(** [int(math.log2(n))] for an int [n >= 1].  [math.log2] is the
    platform's floating-point logarithm; truncated to an int it is the
    position of the highest set bit of [n] for every count of CPUs a
    machine can report (the rounding of the logarithm only matters
    just below powers of two far above 2^40), and that is what the
    model takes. *)
Definition int_log2 (n : Z) : Z := Z.log2 n.

(** [cpu_count] is what [multiprocessing.cpu_count()] returned. *)
Definition get_optimal_max_depth (cpu_count : Z) : Z :=
  if (cpu_count <? 2)%Z then 0%Z else int_log2 cpu_count.

(** ** Cards *)

Open Scope string_scope.

(** [d[k]] on a dict with int or str keys: the value of the entry whose
    key equals [k], [KeyError] when there is none. *)
Definition dict_get (d : list (pyval * Z)) (k : pyval) : result Z :=
  match find (fun entry => py_eq (fst entry) k) d with
  | Some entry => Ok (snd entry)
  | None => Raise KeyError
  end.

(** [k in d]. *)
Definition dict_mem (d : list (pyval * Z)) (k : pyval) : bool :=
  existsb (fun entry => py_eq (fst entry) k) d.

Definition suits_order : list (pyval * Z) :=
  [ (PStr "corazones", 0%Z);
    (PStr "tréboles", 1%Z);
    (PStr "picas", 2%Z);
    (PStr "diamantes", 3%Z);
    (PStr "comodin", 4%Z) ].

Definition ranks_order : list (pyval * Z) :=
  [ (PStr "2", 2%Z); (PStr "3", 3%Z); (PStr "4", 4%Z); (PStr "5", 5%Z);
    (PStr "6", 6%Z); (PStr "7", 7%Z); (PStr "8", 8%Z); (PStr "9", 9%Z);
    (PStr "10", 10%Z); (PStr "J", 11%Z); (PStr "Q", 12%Z); (PStr "K", 13%Z);
    (PStr "A", 1%Z) ].

Module Card.

(** A card: [suit] and [rank] hold whatever the constructor was given
    (the deck builds ordinary cards with str ranks and jokers with int
    ranks). *)
Record t : Type := mk { suit : pyval; rank : pyval }.

(** [Card.key]: the pair (order of the suit, order of the rank); a
    joker keeps its rank as it is. *)
Definition key (self : t) : result (Z * pyval) :=
  if py_eq (suit self) (PStr "comodin")
  then
    s <- dict_get suits_order (suit self) ;;
    Ok (s, rank self)
  else
    s <- dict_get suits_order (suit self) ;;
    r <- dict_get ranks_order (rank self) ;;
    Ok (s, PInt r).

End Card.

(** [card_sort_key] is defined by [def] at module level. *)
Definition card_sort_key : pyfun Card.t (Z * pyval) :=
  Def (fun card => Card.key card).

Close Scope string_scope.

(** ** The store of list objects

    Python lists are mutable objects reached through references.  To
    speak of what [merge] and [parallel_merge_sort] do to their
    arguments, the two functions are modelled a second time over a
    store of list objects, operation by operation: [[]] and slices
    allocate, [append] and [extend] update the object they are called
    on, [len] and indexing read.  The elements themselves are never
    updated by the program and stay values. *)

Definition ref : Type := nat.

Section Store.

Context {A K : Type} `{PyOrd K}.
Variable key : A -> result K.

(** The list objects alive, by address. *)
Definition store : Type := list (list A).

Definition deref (h : store) (p : ref) : list A := nth p h [].

(** A new list object with the contents [v]. *)
Definition alloc (h : store) (v : list A) : store * ref := (h ++ [v], length h).

(** The object at [p] gets the contents [v]. *)
Fixpoint assign (h : store) (p : ref) (v : list A) : store :=
  match h, p with
  | [], _ => []
  | _ :: rest, 0 => v :: rest
  | x :: rest, S p' => x :: assign rest p' v
  end.

(** [xs.append(x)] *)
Definition append (h : store) (xs : ref) (x : A) : store :=
  assign h xs (deref h xs ++ [x]).

(** [xs.extend(ys)] *)
Definition extend (h : store) (xs ys : ref) : store :=
  assign h xs (deref h xs ++ deref h ys).

(** [xs[i:]] *)
Definition slice_from (h : store) (xs : ref) (i : nat) : store * ref :=
  alloc h (skipn i (deref h xs)).

(** [xs[:i]] *)
Definition slice_to (h : store) (xs : ref) (i : nat) : store * ref :=
  alloc h (firstn i (deref h xs)).

(** What a call does: it returns in a store, raises in a store, or the
    fuel of a loop ran out. *)
Inductive outcome (X : Type) : Type :=
| Returns (h : store) (x : X)
| Raises (h : store) (e : exn)
| OutOfFuel.

Arguments Returns {X} h x.
Arguments Raises {X} h e.
Arguments OutOfFuel {X}.

(** An expression that only reads: its value or its exception, in the
    store as it is. *)
Definition reading {X Y : Type} (h : store) (r : result X)
    (k : X -> outcome Y) : outcome Y :=
  match r with
  | Ok x => k x
  | Raise e => Raises h e
  end.

(** The [while] loop of [merge]; it returns the cursors [(i, j)]. *)
Fixpoint merge_while (fuel : nat) (l r merged : ref) (i j : nat) (h : store)
  : outcome (nat * nat) :=
  if (i <? length (deref h l)) && (j <? length (deref h r))
  then
    match fuel with
    | 0 => OutOfFuel
    | S fuel' =>
        reading h (index (deref h l) i) (fun x =>
        reading h (key x) (fun kx =>
        reading h (index (deref h r) j) (fun y =>
        reading h (key y) (fun ky =>
        reading h (py_le kx ky) (fun b =>
          if b
          then merge_while fuel' l r merged (S i) j (append h merged x)
          else merge_while fuel' l r merged i (S j) (append h merged y))))))
    end
  else Returns h (i, j).

(** [merge(left, right, key)] on references [l] and [r]. *)
Definition merge_st (l r : ref) (h : store) : outcome ref :=
  let (h1, merged) := alloc h [] in
  match merge_while (length (deref h1 l) + length (deref h1 r)) l r merged 0 0 h1 with
  | Returns h2 (i, j) =>
      let (h3, rest_l) := slice_from h2 l i in
      let h4 := extend h3 merged rest_l in
      let (h5, rest_r) := slice_from h4 r j in
      let h6 := extend h5 merged rest_r in
      Returns h6 merged
  | Raises h2 e => Raises h2 e
  | OutOfFuel => OutOfFuel
  end.

(** [sorted(array, key=key)]: a new list; [array] is only read. *)
Definition sorted_st (array : ref) (h : store) : outcome ref :=
  reading h (sorted key (deref h array)) (fun v =>
    let (h', out) := alloc h v in Returns h' out).

(** What comes back from a worker process: the worker ran the call on
    its own copy of the argument in its own store [hw]; the list it
    returned is copied into a new object of the caller's store. *)
Definition future_result (h : store) (worker : outcome ref) : outcome ref :=
  match worker with
  | Returns hw out => let (h', p) := alloc h (deref hw out) in Returns h' p
  | Raises _ e => Raises h e
  | OutOfFuel => OutOfFuel
  end.

End Store.

Arguments Returns {A X} h x.
Arguments Raises {A X} h e.
Arguments OutOfFuel {A X}.

Arguments store : clear implicits.
Arguments outcome : clear implicits.

Section StoreWorkers.

Context {A K : Type} `{PyOrd K}.
Variable key : pyfun A K.

(** [executor.submit(...)] over stores: what the future will hold is
    the outcome of the call in the worker's store, or [PicklingError]
    when [key] cannot be pickled (no worker ran, so no worker store). *)
Definition submit_st (worker : outcome A ref) : outcome A ref :=
  if picklable key then worker else Raises [] PicklingError.

(** [parallel_merge_sort(array, key, max_depth)] on a reference. *)
Equations? parallel_merge_sort_st (array : ref) (max_depth : Z) (h : store A)
  : outcome A ref by wf (Z.to_nat max_depth) lt :=
parallel_merge_sort_st array max_depth h
    with inspect ((length (deref h array) <=? 1) || (max_depth <=? 0)%Z) => {
  | exist _ true _ => sorted_st key array h
  | exist _ false Hrec =>
      let mid := length (deref h array) / 2 in
      let (h1, left_part) := slice_to h array mid in
      let (h2, right_part) := slice_from h1 array mid in
      let left_future :=
        submit_st (parallel_merge_sort_st 0 (max_depth - 1) [deref h2 left_part]) in
      let right_future :=
        submit_st (parallel_merge_sort_st 0 (max_depth - 1) [deref h2 right_part]) in
      match future_result h2 left_future with
      | Returns h3 left_sorted =>
          match future_result h3 right_future with
          | Returns h4 right_sorted => merge_st key left_sorted right_sorted h4
          | Raises h4 e => Raises h4 e
          | OutOfFuel => OutOfFuel
          end
      | Raises h3 e => Raises h3 e
      | OutOfFuel => OutOfFuel
      end
}.
Proof.
  all: pose proof (proj2 (proj1 (orb_false_iff _ _) Hrec)) as Hd.
  all: apply Z.leb_gt in Hd; lia.
Qed.

End StoreWorkers.

(** ** [Card.__repr__] and [print_deck_with_duplicates] *)

(** [str(v)], as an f-string formats an int or a str. *)
Definition py_str (v : pyval) : string :=
  match v with
  | PInt z => NilZero.string_of_int (Z.to_int z)
  | PStr s => s
  end.

(** [str(n)] for a count. *)
Definition nat_str (n : nat) : string := NilZero.string_of_uint (Nat.to_uint n).

(** [Card.__repr__]. *)
Definition Card_repr (self : Card.t) : string :=
  if py_eq (Card.suit self) (PStr "comodin")
  then String.append "Comodín " (py_str (Card.rank self))
  else String.append (py_str (Card.rank self))
         (String.append " de " (py_str (Card.suit self))).

(** The test [card.suit == prev_card.suit and card.rank == prev_card.rank]. *)
Definition same_card (card prev_card : Card.t) : bool :=
  py_eq (Card.suit card) (Card.suit prev_card) &&
  py_eq (Card.rank card) (Card.rank prev_card).

(** What the program prints for a card and the count accumulated for
    it (the source has this conditional twice, in the loop and after
    it): the card, followed by [(xN)] when it was seen more than
    once. *)
Definition group_text (prev_card : Card.t) (count : nat) : string :=
  if 1 <? count
  then String.append (Card_repr prev_card)
         (String.append " (x" (String.append (nat_str count) ")"))
  else Card_repr prev_card.

(** The [for] loop over [sorted_deck[1:]], with [prev_card], [count]
    and the lines printed so far, and the last [print] after it.  The
    output is the list of the texts given to [print], in order. *)
Fixpoint print_loop (rest : list Card.t) (prev_card : Card.t) (count : nat)
    (out : list string) : list string :=
  match rest with
  | [] => out ++ [group_text prev_card count]
  | card :: rest' =>
      if same_card card prev_card
      then print_loop rest' prev_card (count + 1) out
      else print_loop rest' card 1 (out ++ [group_text prev_card count])
  end.

Definition newline : string := String (ascii_of_nat 10) EmptyString.

Definition default_title : string := "Deck ordenado".

Definition print_deck_with_duplicates (sorted_deck : list Card.t) (title : string)
  : list string :=
  let out :=
    [String.append newline (String.append "-- " (String.append title " --"))] in
  match sorted_deck with
  | [] => out ++ ["No hay cartas para mostrar."%string]
  | prev_card :: rest => print_loop rest prev_card 1 out
  end.

(** ** [Deck] *)

(** [l * n] on a list: [n] copies of [l] one after the other, none
    when [n <= 0]. *)
Definition list_mul {X : Type} (l : list X) (n : Z) : list X :=
  concat (repeat l (Z.to_nat n)).

Module Deck.

Record t : Type := mk {
  suits : list pyval;
  ranks : list pyval;
  deck : list Card.t
}.

(** [createDeck]: [random.shuffle] permutes the list in place; what it
    did in this run is the function [shuffle]. *)
Definition createDeck (shuffle : list Card.t -> list Card.t)
    (self_suits self_ranks : list pyval) (numDecks : Z) : list Card.t :=
  let deck :=
    list_mul
      (flat_map (fun rank => map (fun suit => Card.mk suit rank) self_suits)
                self_ranks)
      numDecks in
  let deck :=
    deck ++ list_mul [Card.mk (PStr "comodin") (PInt 1);
                      Card.mk (PStr "comodin") (PInt 2)] numDecks in
  shuffle deck.

(** [Deck.__init__]. *)
Definition init (shuffle : list Card.t -> list Card.t) (numDecks : Z) : t :=
  let self_suits :=
    [PStr "corazones"; PStr "tréboles"; PStr "picas"; PStr "diamantes"] in
  let self_ranks :=
    [PStr "2"; PStr "3"; PStr "4"; PStr "5"; PStr "6"; PStr "7"; PStr "8";
     PStr "9"; PStr "10"; PStr "J"; PStr "Q"; PStr "K"; PStr "A"] in
  mk self_suits self_ranks (createDeck shuffle self_suits self_ranks numDecks).

End Deck.

(** ** The main program *)

(** What a run of the script computes.  The lines about the elapsed
    times are left out (they depend on the clock), and of the output
    only the deck printed at the end is kept. *)
Record run : Type := mk_run {
  total_cards : nat;
  optimal_depth : Z;
  user_depth : Z;
  sorted_parallel : list Card.t;
  sorted_sequential : list Card.t;
  printed : list string
}.

(** The script, as a function of what the run met: the permutation
    [random.shuffle] made, the number of CPUs, and what
    [int(input(...))] gave ([None] when it raised [ValueError]).
    [int(4_000_000 / 54)] is the integer quotient. *)
Definition main (shuffle : list Card.t -> list Card.t) (cpu_count : Z)
    (typed : option Z) : result run :=
  let num_decks := (4000000 / 54)%Z in
  let deck_obj := Deck.init shuffle num_decks in
  let total_cards := length (Deck.deck deck_obj) in
  let deck_for_parallel := Deck.deck deck_obj in
  let deck_for_sequential := Deck.deck deck_obj in
  let optimal_depth := get_optimal_max_depth cpu_count in
  let user_depth :=
    match typed with
    | Some n => n
    | None => optimal_depth
    end in
  sorted_parallel <-
    parallel_merge_sort card_sort_key deck_for_parallel user_depth ;;
  sorted_sequential <- sorted card_sort_key deck_for_sequential ;;
  Ok (mk_run total_cards optimal_depth user_depth sorted_parallel
        sorted_sequential
        (print_deck_with_duplicates sorted_parallel default_title)).

(** ** The tasks given to the executors *)

(** The number of [executor.submit] calls a call of
    [parallel_merge_sort] causes, in itself and in its workers: two in
    every call that is not a base case.  Both halves are submitted
    before a result is awaited, so that the number does not depend on
    the keys.  (With a key function that cannot be pickled the workers
    never run, and the two submissions of the first call are the only
    ones: fewer than counted here.) *)
Equations? submitted_tasks {A : Type} (array : list A) (max_depth : Z)
  : nat by wf (Z.to_nat max_depth) lt :=
submitted_tasks array max_depth
    with inspect ((length array <=? 1) || (max_depth <=? 0)%Z) => {
  | exist _ true _ => 0
  | exist _ false Hrec =>
      let mid := length array / 2 in
      2 + submitted_tasks (firstn mid array) (max_depth - 1)
        + submitted_tasks (skipn mid array) (max_depth - 1)
}.
Proof.
  all: apply orb_false_iff in Hrec; destruct Hrec as [_ Hd].
  all: apply Z.leb_gt in Hd; lia.
Qed.

(** * Part II: the vocabulary of the specification *)

(** ** Totally ordered keys *)

(** Keys whose comparisons never raise and form a total order, [==]
    being the equivalence of the order: ints, and tuples of such
    keys. *)
Class TotalOrd (K : Type) `{PyOrd K} : Type := {
  leb : K -> K -> bool;
  py_le_leb : forall a b, py_le a b = Ok (leb a b);
  py_lt_leb : forall a b, py_lt a b = Ok (negb (leb b a));
  py_eq_leb : forall a b, py_eq a b = leb a b && leb b a;
  leb_total : forall a b, leb a b = true \/ leb b a = true;
  leb_trans : forall a b c, leb a b = true -> leb b c = true -> leb a c = true
}.

Section TotalKeys.

Context {A K : Type} `{TotalOrd K}.
Variable key : A -> K.

(** The key function as a call that never raises. *)
Definition total (x : A) : result K := Ok (key x).

(** [kle x y]: the key of [x] is at most the key of [y]. *)
Definition kle (x y : A) : Prop := leb (key x) (key y) = true.

(** Every adjacent pair of [out] is in key order. *)
Definition ascending (out : list A) : Prop :=
  forall (i : nat) (x y : A),
    nth_error out i = Some x -> nth_error out (S i) = Some y -> kle x y.

(** [same_key k x]: the key of [x] equals [k] (Python's [==]). *)
Definition same_key (k : K) (x : A) : bool := py_eq (key x) k.

(** [out] keeps the elements of each key in the order they have in
    [input]. *)
Definition stable_wrt (input out : list A) : Prop :=
  forall k : K, filter (same_key k) out = filter (same_key k) input.

(** The merge of two lists in functional form: the head with the
    smaller key goes first, the left one on a tie. *)
Fixpoint merge_lists (l r : list A) : list A :=
  match l with
  | [] => r
  | x :: l' =>
      (fix inner (r : list A) : list A :=
         match r with
         | [] => l
         | y :: r' =>
             if leb (key x) (key y)
             then x :: merge_lists l' r
             else y :: inner r'
         end) r
  end.

(** Stable insertion: [x] goes before the first element whose key is
    not below its own. *)
Fixpoint insert_stable (x : A) (s : list A) : list A :=
  match s with
  | [] => [x]
  | y :: t =>
      if negb (leb (key x) (key y))
      then y :: insert_stable x t
      else x :: y :: t
  end.

(** The stable sort in functional form. *)
Definition stable_sort (l : list A) : list A := fold_right insert_stable [] l.

End TotalKeys.

(** ** Key functions that behave as a total order on a list *)


Section Agreement.

Context {A K K' : Type} `{PyOrd K} `{TotalOrd K'}.

(** On the elements of [array] the key function [key] never raises and
    the comparisons of its keys never raise and are those of the
    totally ordered keys [key']. *)
Definition agree_on (key : A -> result K) (key' : A -> K') (array : list A) : Prop :=
  forall x y : A, In x array -> In y array ->
    exists kx ky : K,
      key x = Ok kx /\ key y = Ok ky /\
      py_le kx ky = Ok (leb (key' x) (key' y)) /\
      py_lt kx ky = Ok (negb (leb (key' y) (key' x))).


(** Each pair of a decorated list holds an element and its key. *)
Definition well_decorated (key : A -> result K) (d : list (K * A)) : Prop :=
  Forall (fun p => key (snd p) = Ok (fst p)) d.

End Agreement.

(** ** Recursive calls *)

(** The test that sends [parallel_merge_sort] to [sorted]. *)
Definition is_base_case {A : Type} (array : list A) (max_depth : Z) : bool :=
  (length array <=? 1) || (max_depth <=? 0)%Z.

(** [recursive_call caller callee]: the call [caller] (its array and
    its depth) submits the call [callee] to the executor. *)
Inductive recursive_call {A : Type} : list A * Z -> list A * Z -> Prop :=
| call_left (array : list A) (max_depth : Z) :
    is_base_case array max_depth = false ->
    recursive_call (array, max_depth)
                   (firstn (length array / 2) array, (max_depth - 1)%Z)
| call_right (array : list A) (max_depth : Z) :
    is_base_case array max_depth = false ->
    recursive_call (array, max_depth)
                   (skipn (length array / 2) array, (max_depth - 1)%Z).

(** ** Cards *)

Definition comodin : pyval := PStr "comodin".

(** A card for which [Card.key] cannot be computed: its suit is not in
    [suits_order], or it is not a joker and its rank is not in
    [ranks_order]. *)
Definition malformed (c : Card.t) : Prop :=
  dict_mem suits_order (Card.suit c) = false \/
  (py_eq (Card.suit c) comodin = false /\
   dict_mem ranks_order (Card.rank c) = false).

(** A card as the deck builds them: its key can be computed and is a
    pair of ints (a joker with an int rank, or an ordinary card). *)
Definition well_formed (c : Card.t) : Prop :=
  exists s r : Z, Card.key c = Ok (s, PInt r).

(** The key of a well-formed card as a pair of ints. *)
Definition int_key (c : Card.t) : Z * Z :=
  match Card.key c with
  | Ok (s, PInt r) => (s, r)
  | _ => (0%Z, 0%Z)
  end.

(** ** Stores *)

Section Frames.

Context {A : Type}.

(** Every object of [h] is still there in [h'], with the contents it
    had. *)
Definition preserves (h h' : store A) : Prop :=
  length h <= length h' /\
  forall p : ref, p < length h -> deref h' p = deref h p.

(** [h'] has the objects of [h], all with their contents except
    possibly the one at [q]. *)
Definition only_changes (q : ref) (h h' : store A) : Prop :=
  length h' = length h /\
  forall p : ref, p <> q -> deref h' p = deref h p.

End Frames.

(** ** The printed deck *)

(** The runs of equal cards of a list that starts with [count] cards
    [prev] followed by [rest]: each run with its length. *)
Fixpoint runs_from (prev : Card.t) (count : nat) (rest : list Card.t)
  : list (Card.t * nat) :=
  match rest with
  | [] => [(prev, count)]
  | card :: rest' =>
      if same_card card prev
      then runs_from prev (count + 1) rest'
      else (prev, count) :: runs_from card 1 rest'
  end.

(** The cards a list of runs stands for. *)
Definition expand (groups : list (Card.t * nat)) : list Card.t :=
  flat_map (fun g => repeat (fst g) (snd g)) groups.

(** The line printed for a run. *)
Definition run_text (g : Card.t * nat) : string := group_text (fst g) (snd g).

(** The first line printed, with the title. *)
Definition header (title : string) : string :=
  String.append newline (String.append "-- " (String.append title " --")).

(** No two neighbours of a list of runs are runs of the same card. *)
Definition neighbours_differ (groups : list (Card.t * nat)) : Prop :=
  forall (i : nat) (g1 g2 : Card.t * nat),
    nth_error groups i = Some g1 -> nth_error groups (S i) = Some g2 ->
    fst g1 <> fst g2.

(** ** Decks *)

(** The 54 cards of one pack in ascending key order: the four suits in
    the order of [suits_order], each from the ace to the king, then the
    two jokers. *)
Definition pack : list Card.t :=
  flat_map
    (fun suit =>
       map (fun rank => Card.mk (PStr suit) (PStr rank))
           ["A"; "2"; "3"; "4"; "5"; "6"; "7"; "8"; "9"; "10"; "J"; "Q"; "K"]%string)
    ["corazones"; "tréboles"; "picas"; "diamantes"]%string
  ++ [Card.mk comodin (PInt 1); Card.mk comodin (PInt 2)].

(** [n] copies of each card of [cards], card after card. *)
Definition copies (n : nat) (cards : list Card.t) : list Card.t :=
  expand (map (fun c => (c, n)) cards).

(** What [random.shuffle] may do: it permutes. *)
Definition permutes (shuffle : list Card.t -> list Card.t) : Prop :=
  forall l : list Card.t, Permutation l (shuffle l).

(** ** Where an exception comes from *)


(** * Part III: proofs *)

(** ** The order on keys *)

#[export, refine] Instance TotalOrd_Z : TotalOrd Z := {
  leb := Z.leb
}.
Proof.
  - reflexivity.
  - intros a b. simpl. f_equal. apply Z.ltb_antisym.
  - intros a b. simpl.
    destruct (Z.eqb_spec a b), (Z.leb_spec a b), (Z.leb_spec b a); simpl; lia.
  - intros a b. destruct (Z.leb_spec a b), (Z.leb_spec b a); auto; lia.
  - intros a b c H1 H2. apply Z.leb_le in H1, H2. apply Z.leb_le. lia.
Defined.

Section Order.

Context {K : Type} `{TotalOrd K}.

Lemma leb_refl (a : K) : leb a a = true.
Proof. destruct (leb_total a a); assumption. Qed.

Lemma leb_false_flip (a b : K) : leb a b = false -> leb b a = true.
Proof. intros Hab. destruct (leb_total a b); congruence. Qed.

Lemma py_eq_sym (a b : K) : py_eq a b = py_eq b a.
Proof. rewrite !py_eq_leb. apply andb_comm. Qed.

Lemma py_eq_true (a b : K) :
  py_eq a b = true -> leb a b = true /\ leb b a = true.
Proof. rewrite py_eq_leb. apply andb_true_iff. Qed.

End Order.

(** Derives every consequence of transitivity among the comparisons in
    the context, then closes the goal by congruence. *)
Ltac saturate_leb :=
  repeat match goal with
         | H1 : leb ?x ?y = true, H2 : leb ?y ?z = true |- _ =>
             lazymatch goal with
             | _ : leb x z = true |- _ => fail
             | _ => pose proof (leb_trans _ _ _ H1 H2)
             end
         end;
  congruence.

(** Tuples of totally ordered keys are totally ordered, first
    components first. *)
#[export, refine] Instance TotalOrd_pair {K1 K2 : Type}
    `{TotalOrd K1} `{TotalOrd K2} : TotalOrd (K1 * K2) := {
  leb := fun a b =>
    if negb (py_eq (fst a) (fst b))
    then leb (fst a) (fst b)
    else leb (snd a) (snd b)
}.
Proof.
  - intros [a1 a2] [b1 b2]. cbn [py_le PyOrd_pair fst snd].
    rewrite !py_le_leb. destruct (py_eq a1 b1); cbn [negb]; [|reflexivity].
    destruct (py_eq a2 b2) eqn:E2; cbn [negb]; [|reflexivity].
    apply py_eq_true in E2. destruct E2 as [E2 _]. now rewrite E2.
  - intros [a1 a2] [b1 b2]. cbn [py_lt PyOrd_pair fst snd].
    rewrite !py_lt_leb, (py_eq_sym b1 a1).
    destruct (py_eq a1 b1); cbn [negb]; [|reflexivity].
    destruct (py_eq a2 b2) eqn:E2; cbn [negb]; [|reflexivity].
    apply py_eq_true in E2. destruct E2 as [_ E2]. now rewrite E2.
  - intros [a1 a2] [b1 b2]. cbn [py_eq PyOrd_pair fst snd].
    rewrite (py_eq_sym b1 a1).
    destruct (py_eq a1 b1) eqn:E1; cbn [negb andb].
    + apply py_eq_leb.
    + rewrite py_eq_leb in E1. symmetry. exact E1.
  - intros [a1 a2] [b1 b2]. cbn [fst snd]. rewrite (py_eq_sym b1 a1).
    destruct (py_eq a1 b1); cbn [negb]; apply leb_total.
  - intros [a1 a2] [b1 b2] [c1 c2]. cbn [fst snd]. rewrite !py_eq_leb.
    destruct (leb a1 b1) eqn:Hab, (leb b1 a1) eqn:Hba,
             (leb b1 c1) eqn:Hbc, (leb c1 b1) eqn:Hcb,
             (leb a1 c1) eqn:Hac, (leb c1 a1) eqn:Hca;
      cbn [negb andb]; intros H3 H4; try congruence; try saturate_leb.
Defined.

(** ** The defining equations, as the source reads *)

Section Unfolding.

Context {A K : Type} `{PyOrd K}.
Variable key : A -> result K.

Lemma merge_loop_eq (l r : list A) (i j : nat) (merged : list A) :
  merge_loop key l r i j merged =
  if (i <? length l) && (j <? length r)
  then x <- index l i ;;
       kx <- key x ;;
       y <- index r j ;;
       ky <- key y ;;
       b <- py_le kx ky ;;
       if b
       then merge_loop key l r (S i) j (merged ++ [x])
       else merge_loop key l r i (S j) (merged ++ [y])
  else Ok (merged ++ skipn i l ++ skipn j r).
Proof.
  funelim (merge_loop key l r i j merged).
  - rewrite Hcond. reflexivity.
  - rewrite e. reflexivity.
Qed.

Lemma merge_nil_l (r : list A) : merge key [] r = Ok r.
Proof. unfold merge. rewrite merge_loop_eq. reflexivity. Qed.

Lemma merge_nil_r (l : list A) : merge key l [] = Ok l.
Proof.
  unfold merge. rewrite merge_loop_eq. simpl length.
  rewrite andb_false_r. simpl. now rewrite app_nil_r.
Qed.

End Unfolding.

Section UnfoldingWorkers.

Context {A K : Type} `{PyOrd K}.

Lemma parallel_merge_sort_eq (key : pyfun A K) (array : list A) (max_depth : Z) :
  parallel_merge_sort key array max_depth =
  if (length array <=? 1) || (max_depth <=? 0)%Z
  then sorted key array
  else
    let mid := length array / 2 in
    let left_part := firstn mid array in
    let right_part := skipn mid array in
    let left_future :=
      submit key (parallel_merge_sort key left_part (max_depth - 1)) in
    let right_future :=
      submit key (parallel_merge_sort key right_part (max_depth - 1)) in
    left_sorted <- left_future ;;
    right_sorted <- right_future ;;
    merge key left_sorted right_sorted.
Proof.
  funelim (parallel_merge_sort key array max_depth).
  - rewrite e. reflexivity.
  - rewrite Hrec. reflexivity.
Qed.

(** With a key that can be pickled, the value of each future is the
    value of the recursive call. *)
Lemma parallel_merge_sort_Def (key : A -> result K) (array : list A) (max_depth : Z) :
  parallel_merge_sort (Def key) array max_depth =
  if (length array <=? 1) || (max_depth <=? 0)%Z
  then sorted key array
  else
    let mid := length array / 2 in
    let left_part := firstn mid array in
    let right_part := skipn mid array in
    left_sorted <- parallel_merge_sort (Def key) left_part (max_depth - 1) ;;
    right_sorted <- parallel_merge_sort (Def key) right_part (max_depth - 1) ;;
    merge key left_sorted right_sorted.
Proof. rewrite parallel_merge_sort_eq. reflexivity. Qed.




End UnfoldingWorkers.

(** ** Lists and cursors *)

Lemma skipn_nth_error {X} (l : list X) (i : nat) (x : X) :
  nth_error l i = Some x -> skipn i l = x :: skipn (S i) l.
Proof.
  revert i. induction l as [|a l IH]; intros [|i] Hn; simpl in *; try discriminate.
  - now inversion Hn.
  - now apply IH.
Qed.

Lemma index_lt {X} (l : list X) (i : nat) :
  i < length l ->
  exists x, index l i = Ok x /\ skipn i l = x :: skipn (S i) l /\ In x l.
Proof.
  intros Hi. unfold index.
  destruct (nth_error l i) as [x|] eqn:Hn.
  - exists x. split; [reflexivity|split].
    + now apply skipn_nth_error.
    + now apply nth_error_In with i.
  - apply nth_error_None in Hn. lia.
Qed.

(** ** The functional forms of merging and sorting *)

Section TotalKeysFacts.

Context {A K : Type} `{TotalOrd K}.
Variable key : A -> K.

Local Abbreviation kle := (kle key).
Local Abbreviation ascending := (ascending key).
Local Abbreviation same_key := (same_key key).
Local Abbreviation stable_wrt := (stable_wrt key).
Local Abbreviation merge_lists := (merge_lists key).
Local Abbreviation insert_stable := (insert_stable key).
Local Abbreviation stable_sort := (stable_sort key).

Lemma merge_lists_nil_r (l : list A) : merge_lists l [] = l.
Proof. destruct l; reflexivity. Qed.

Lemma merge_lists_cons (x y : A) (l r : list A) :
  merge_lists (x :: l) (y :: r) =
  if leb (key x) (key y)
  then x :: merge_lists l (y :: r)
  else y :: merge_lists (x :: l) r.
Proof. reflexivity. Qed.

Lemma kle_trans (x y z : A) : kle x y -> kle y z -> kle x z.
Proof. unfold kle. apply leb_trans. Qed.

(** Merging commutes with stable insertion. *)

Lemma insert_stable_cons (a y : A) (t : list A) :
  insert_stable a (y :: t) =
  if leb (key a) (key y) then a :: y :: t else y :: insert_stable a t.
Proof. simpl. now destruct (leb (key a) (key y)). Qed.

Lemma merge_lists_insert (a : A) (t s : list A) :
  merge_lists (insert_stable a t) s = insert_stable a (merge_lists t s).
Proof.
  revert s. induction t as [|x t IHt]; intros s.
  - change (insert_stable a []) with [a].
    change (merge_lists [] s) with s.
    induction s as [|y s IHs]; [reflexivity|].
    rewrite merge_lists_cons, insert_stable_cons.
    destruct (leb (key a) (key y)); [reflexivity|].
    now rewrite IHs.
  - rewrite insert_stable_cons.
    destruct (leb (key a) (key x)) eqn:Hax.
    + induction s as [|y s IHs].
      { now rewrite !merge_lists_nil_r, insert_stable_cons, Hax. }
      rewrite (merge_lists_cons a y), (merge_lists_cons x y).
      destruct (leb (key a) (key y)) eqn:Hay.
      * destruct (leb (key x) (key y));
          now rewrite insert_stable_cons, ?Hax, ?Hay.
      * rewrite IHs.
        assert (Hxy : leb (key x) (key y) = false).
        { destruct (leb (key x) (key y)) eqn:Hxy; [|reflexivity].
          now rewrite (leb_trans _ _ _ Hax Hxy) in Hay. }
        now rewrite Hxy, insert_stable_cons, Hay.
    + induction s as [|y s IHs].
      { now rewrite !merge_lists_nil_r, insert_stable_cons, Hax. }
      rewrite !merge_lists_cons.
      destruct (leb (key x) (key y)) eqn:Hxy.
      * now rewrite IHt, insert_stable_cons, Hax.
      * rewrite IHs.
        assert (Hay : leb (key a) (key y) = false).
        { destruct (leb (key a) (key y)) eqn:Hay; [|reflexivity].
          apply leb_false_flip in Hxy.
          now rewrite (leb_trans _ _ _ Hay Hxy) in Hax. }
        now rewrite insert_stable_cons, Hay.
Qed.

Lemma merge_lists_stable_sort (l s : list A) :
  merge_lists (stable_sort l) s = fold_right insert_stable s l.
Proof.
  induction l as [|a l IH]; simpl; [reflexivity|].
  now rewrite merge_lists_insert, IH.
Qed.

Lemma stable_sort_app (l r : list A) :
  merge_lists (stable_sort l) (stable_sort r) = stable_sort (l ++ r).
Proof.
  unfold stable_sort at 3. rewrite fold_right_app.
  apply merge_lists_stable_sort.
Qed.

Lemma Sorted_ascending (l : list A) : Sorted kle l <-> ascending l.
Proof.
  split.
  - intros Hs. induction Hs as [|a l Hs IH Hd]; intros i x y Hx Hy.
    + destruct i; discriminate.
    + destruct i as [|i]; simpl in Hx, Hy.
      * inversion Hx; subst. destruct Hd as [|b l Hab]; [discriminate|].
        simpl in Hy. inversion Hy; subst. exact Hab.
      * exact (IH i x y Hx Hy).
  - induction l as [|a l IH]; intros Ha; constructor.
    + apply IH. intros i x y Hx Hy. exact (Ha (S i) x y Hx Hy).
    + destruct l as [|b l]; constructor.
      exact (Ha 0 a b eq_refl eq_refl).
Qed.

Lemma StronglySorted_ascending (l : list A) : StronglySorted kle l <-> ascending l.
Proof.
  rewrite <- Sorted_ascending. split.
  - apply StronglySorted_Sorted.
  - apply Sorted_StronglySorted. intros x y z. apply kle_trans.
Qed.

Lemma Forall_kle_trans (x y : A) (l : list A) :
  kle x y -> Forall (kle y) l -> Forall (kle x) l.
Proof.
  intros Hxy Hl. eapply Forall_impl; [|exact Hl].
  intros z Hyz. exact (kle_trans _ _ _ Hxy Hyz).
Qed.

Lemma insert_stable_perm (a : A) (s : list A) :
  Permutation (a :: s) (insert_stable a s).
Proof.
  induction s as [|y t IH]; [reflexivity|].
  rewrite insert_stable_cons. destruct (leb (key a) (key y)); [reflexivity|].
  rewrite perm_swap. now constructor.
Qed.

Lemma stable_sort_perm (l : list A) : Permutation l (stable_sort l).
Proof.
  induction l as [|a l IH]; simpl; [constructor|].
  rewrite <- insert_stable_perm. now constructor.
Qed.

Lemma insert_stable_sorted (a : A) (s : list A) :
  StronglySorted kle s -> StronglySorted kle (insert_stable a s).
Proof.
  induction s as [|y t IH]; intros Hs.
  - repeat constructor.
  - inversion Hs as [|? ? Ht Hy]; subst. rewrite insert_stable_cons.
    destruct (leb (key a) (key y)) eqn:Hay.
    + constructor; [exact Hs|].
      constructor; [exact Hay|]. exact (Forall_kle_trans _ _ _ Hay Hy).
    + constructor; [now apply IH|].
      apply (Permutation_Forall (insert_stable_perm a t)).
      constructor; [|exact Hy]. now apply leb_false_flip.
Qed.

Lemma stable_sort_sorted (l : list A) : StronglySorted kle (stable_sort l).
Proof.
  induction l as [|a l IH]; simpl; [constructor|].
  now apply insert_stable_sorted.
Qed.

Lemma merge_lists_perm (l r : list A) : Permutation (l ++ r) (merge_lists l r).
Proof.
  revert r. induction l as [|x l IHl]; intros r; [reflexivity|].
  induction r as [|y r IHr].
  - now rewrite merge_lists_nil_r, app_nil_r.
  - rewrite merge_lists_cons. destruct (leb (key x) (key y)).
    + simpl. constructor. apply IHl.
    + rewrite <- IHr. symmetry. apply (Permutation_middle (x :: l) r y).
Qed.

Lemma merge_lists_sorted (l r : list A) :
  StronglySorted kle l -> StronglySorted kle r ->
  StronglySorted kle (merge_lists l r).
Proof.
  revert r. induction l as [|x l IHl]; intros r Hl Hr; [exact Hr|].
  induction r as [|y r IHr]; [now rewrite merge_lists_nil_r|].
  inversion Hl as [|? ? Hl' Hx]; subst.
  inversion Hr as [|? ? Hr' Hy]; subst.
  rewrite merge_lists_cons. destruct (leb (key x) (key y)) eqn:Hxy.
  - constructor; [now apply IHl|].
    apply (Permutation_Forall (merge_lists_perm l (y :: r))).
    apply Forall_app. split; [exact Hx|].
    constructor; [exact Hxy|]. exact (Forall_kle_trans _ _ _ Hxy Hy).
  - apply leb_false_flip in Hxy. constructor; [now apply IHr|].
    apply (Permutation_Forall (merge_lists_perm (x :: l) r)).
    apply Forall_app. split; [|exact Hy].
    constructor; [exact Hxy|]. exact (Forall_kle_trans _ _ _ Hxy Hx).
Qed.

Lemma same_key_kle (k : K) (x y : A) :
  same_key k x = true -> same_key k y = true -> kle x y.
Proof.
  unfold same_key, kle. rewrite !py_eq_leb, !andb_true_iff.
  intros [Hxk _] [_ Hky]. exact (leb_trans _ _ _ Hxk Hky).
Qed.

Lemma filter_insert_stable (k : K) (a : A) (s : list A) :
  filter (same_key k) (insert_stable a s) = filter (same_key k) (a :: s).
Proof.
  induction s as [|y t IH]; [reflexivity|].
  rewrite insert_stable_cons. destruct (leb (key a) (key y)) eqn:Hay; [reflexivity|].
  simpl in *. rewrite IH.
  destruct (same_key k a) eqn:Ha, (same_key k y) eqn:Hy; try reflexivity.
  pose proof (same_key_kle _ _ _ Ha Hy) as Hle. unfold kle in Hle. congruence.
Qed.

Lemma stable_sort_stable (l : list A) : stable_wrt l (stable_sort l).
Proof.
  intros k. induction l as [|a l IH]; [reflexivity|].
  simpl stable_sort. rewrite filter_insert_stable. simpl. now rewrite IH.
Qed.

Lemma same_key_refl (x : A) : same_key (key x) x = true.
Proof. unfold same_key. now rewrite py_eq_leb, leb_refl. Qed.

Lemma filter_none (p : A -> bool) (l : list A) :
  Forall (fun z => p z = false) l -> filter p l = [].
Proof.
  induction 1 as [|z l Hz _ IH]; simpl; [reflexivity|]. now rewrite Hz.
Qed.

(** Merging is stable: of the elements with one key, those of the left
    list come first, each list's in their order. *)
Lemma merge_lists_stable (l r : list A) (k : K) :
  StronglySorted kle l ->
  filter (same_key k) (merge_lists l r) =
  filter (same_key k) l ++ filter (same_key k) r.
Proof.
  revert r. induction l as [|x l IHl]; intros r Hl; [reflexivity|].
  inversion Hl as [|? ? Hl' Hx]; subst.
  induction r as [|y r IHr]; [now rewrite merge_lists_nil_r, app_nil_r|].
  rewrite merge_lists_cons. destruct (leb (key x) (key y)) eqn:Hxy.
  - cbn [filter]. rewrite (IHl _ Hl').
    now destruct (same_key k x).
  - cbn [filter] in *. rewrite IHr.
    destruct (same_key k y) eqn:Hy; [|reflexivity].
    assert (Hnone : Forall (fun z => same_key k z = false) (x :: l)).
    { assert (Hge : Forall (kle x) (x :: l)).
      { constructor; [apply leb_refl|exact Hx]. }
      eapply Forall_impl; [|exact Hge]. intros z Hxz.
      destruct (same_key k z) eqn:Hz; [|reflexivity].
      pose proof (same_key_kle _ _ _ Hz Hy) as Hzy.
      pose proof (kle_trans _ _ _ Hxz Hzy) as Hle.
      unfold kle in Hle. congruence. }
    pose proof (filter_none _ _ Hnone) as Hnil. cbn [filter] in Hnil.
    now rewrite Hnil.
Qed.

(** Two lists in ascending order that keep the elements of every key
    in the same order are equal. *)
Lemma sorted_stable_eq (l1 l2 : list A) :
  StronglySorted kle l1 -> StronglySorted kle l2 ->
  (forall k : K, filter (same_key k) l1 = filter (same_key k) l2) ->
  l1 = l2.
Proof.
  revert l2. induction l1 as [|x t1 IH]; intros l2 H1 H2 Hf.
  - destruct l2 as [|y t2]; [reflexivity|].
    specialize (Hf (key y)). cbn [filter] in Hf.
    rewrite same_key_refl in Hf. discriminate.
  - destruct l2 as [|y t2].
    { specialize (Hf (key x)). cbn [filter] in Hf.
      rewrite same_key_refl in Hf. discriminate. }
    inversion H1 as [|? ? Ht1 Hx]; inversion H2 as [|? ? Ht2 Hy]; subst.
    assert (Hxy : same_key (key x) y = true).
    { destruct (same_key (key x) y) eqn:E; [reflexivity|]. exfalso.
      pose proof (Hf (key x)) as Hfx. cbn [filter] in Hfx.
      rewrite same_key_refl, E in Hfx.
      assert (Hin2 : In x t2).
      { assert (Hin : In x (filter (same_key (key x)) t2))
          by (rewrite <- Hfx; now left).
        apply filter_In in Hin. tauto. }
      pose proof (Hf (key y)) as Hfy. cbn [filter] in Hfy.
      assert (E' : same_key (key y) x = false).
      { unfold same_key in *. now rewrite py_eq_sym. }
      rewrite same_key_refl, E' in Hfy.
      assert (Hin1 : In y t1).
      { assert (Hin : In y (filter (same_key (key y)) t1))
          by (rewrite Hfy; now left).
        apply filter_In in Hin. tauto. }
      pose proof (proj1 (Forall_forall _ _) Hx _ Hin1) as Hle1.
      pose proof (proj1 (Forall_forall _ _) Hy _ Hin2) as Hle2.
      unfold same_key, kle in *.
      rewrite py_eq_leb, Hle1, Hle2 in E. discriminate. }
    pose proof (Hf (key x)) as Hfx. cbn [filter] in Hfx.
    rewrite same_key_refl, Hxy in Hfx. inversion Hfx; subst y.
    f_equal. apply IH; [assumption|assumption|].
    intros k. specialize (Hf k). cbn [filter] in Hf.
    destruct (same_key k x); [now inversion Hf|exact Hf].
Qed.

(** Only one list is in ascending order and stable with respect to the
    input: the one the stable sort computes. *)
Lemma stable_sort_unique (input out : list A) :
  ascending out -> stable_wrt input out -> out = stable_sort input.
Proof.
  intros Ha Hs. apply sorted_stable_eq.
  - now apply StronglySorted_ascending.
  - apply stable_sort_sorted.
  - intros k. rewrite (Hs k). symmetry. apply stable_sort_stable.
Qed.

End TotalKeysFacts.

(** ** The program on key functions that behave as a total order *)

Section Refinement.

Context {A K K' : Type} `{PyOrd K} `{TotalOrd K'}.
Variable key : A -> result K.
Variable key' : A -> K'.

Lemma agree_on_incl (l l' : list A) :
  incl l' l -> agree_on key key' l -> agree_on key key' l'.
Proof. intros Hi Ha x y Hx Hy. apply Ha; now apply Hi. Qed.

Lemma merge_loop_agree (n : nat) :
  forall (l r : list A) (i j : nat) (merged : list A),
    agree_on key key' (l ++ r) ->
    (length l - i) + (length r - j) <= n ->
    merge_loop key l r i j merged =
    Ok (merged ++ merge_lists key' (skipn i l) (skipn j r)).
Proof.
  induction n as [|n IH]; intros l r i j merged Ha Hn; rewrite merge_loop_eq.
  - assert (Hi : skipn i l = []) by (apply skipn_all2; lia).
    assert (Hc : (i <? length l) && (j <? length r) = false).
    { apply andb_false_iff. left. apply Nat.ltb_ge. lia. }
    rewrite Hc, Hi. reflexivity.
  - destruct ((i <? length l) && (j <? length r)) eqn:Hc.
    + apply andb_true_iff in Hc. destruct Hc as [Hi Hj].
      apply Nat.ltb_lt in Hi, Hj.
      destruct (index_lt l i Hi) as (x & Hx & Hsx & Hinx).
      destruct (index_lt r j Hj) as (y & Hy & Hsy & Hiny).
      destruct (Ha x y) as (kx & ky & Hkx & Hky & Hle & _);
        [apply in_or_app; now left|apply in_or_app; now right|].
      rewrite Hx, Hkx, Hy, Hky, Hle, Hsx, Hsy, merge_lists_cons.
      destruct (leb (key' x) (key' y)).
      * rewrite IH by (assumption || lia). rewrite <- app_assoc, Hsy. reflexivity.
      * rewrite IH by (assumption || lia). rewrite <- app_assoc, Hsx. reflexivity.
    + apply andb_false_iff in Hc. destruct Hc as [Hc|Hc]; apply Nat.ltb_ge in Hc.
      * rewrite (skipn_all2 l) by lia. reflexivity.
      * rewrite (skipn_all2 r) by lia. now rewrite merge_lists_nil_r, app_nil_r.
Qed.

Lemma merge_agree (l r : list A) :
  agree_on key key' (l ++ r) -> merge key l r = Ok (merge_lists key' l r).
Proof.
  intros Ha. unfold merge.
  now rewrite (merge_loop_agree (length l + length r)) by (assumption || lia).
Qed.

Lemma decorate_agree (l : list A) :
  agree_on key key' l ->
  exists d : list (K * A),
    decorate key l = Ok d /\ map snd d = l /\ well_decorated key d.
Proof.
  induction l as [|a l IH]; intros Ha.
  - exists []. repeat split. constructor.
  - destruct (Ha a a) as (ka & _ & Hka & _); [now left|now left|].
    destruct IH as (d & Hd & Hm & Hw).
    { apply (agree_on_incl (a :: l)); [apply incl_tl, incl_refl|exact Ha]. }
    exists ((ka, a) :: d). simpl. rewrite Hka, Hd, Hm.
    repeat split. constructor; assumption.
Qed.

Lemma insort_agree (p : K * A) (s : list (K * A)) :
  well_decorated key (p :: s) ->
  agree_on key key' (map snd (p :: s)) ->
  exists u : list (K * A),
    insort p s = Ok u /\
    map snd u = insert_stable key' (snd p) (map snd s) /\
    well_decorated key u.
Proof.
  induction s as [|q t IH]; intros Hw Ha.
  - exists [p]. repeat split. exact Hw.
  - inversion Hw as [|? ? Hp Hw']; subst.
    inversion Hw' as [|? ? Hq Hwt]; subst.
    destruct (Ha (snd q) (snd p)) as (kq & kp & Hkq & Hkp & _ & Hlt);
      [right; now left|now left|].
    assert (kq = fst q) by congruence. assert (kp = fst p) by congruence.
    subst kq kp. cbn [insort map]. rewrite Hlt, insert_stable_cons.
    destruct (leb (key' (snd p)) (key' (snd q))); cbn [negb].
    + exists (p :: q :: t). repeat split. exact Hw.
    + destruct IH as (u & Hu & Hm & Hwu).
      { constructor; assumption. }
      { apply (agree_on_incl (map snd (p :: q :: t))); [|exact Ha].
        intros z [Hz|Hz]; [now left|right; now right]. }
      exists (q :: u). rewrite Hu. cbn [map]. rewrite Hm.
      repeat split. constructor; assumption.
Qed.

Lemma sort_keyed_agree (d : list (K * A)) :
  well_decorated key d ->
  agree_on key key' (map snd d) ->
  exists u : list (K * A),
    sort_keyed d = Ok u /\
    map snd u = stable_sort key' (map snd d) /\
    well_decorated key u.
Proof.
  induction d as [|p t IH]; intros Hw Ha.
  - exists []. repeat split. constructor.
  - inversion Hw as [|? ? Hp Hwt]; subst.
    destruct IH as (s & Hs & Hm & Hws); [exact Hwt| |].
    { apply (agree_on_incl (map snd (p :: t))); [apply incl_tl, incl_refl|exact Ha]. }
    destruct (insort_agree p s) as (u & Hu & Hmu & Hwu).
    { constructor; assumption. }
    { apply (agree_on_incl (map snd (p :: t))); [|exact Ha].
      cbn [map]. rewrite Hm. intros z [Hz|Hz]; [now left|right].
      apply (Permutation_in z (Permutation_sym (stable_sort_perm key' (map snd t)))).
      exact Hz. }
    exists u. cbn [sort_keyed]. rewrite Hs, Hu, Hmu, Hm. now repeat split.
Qed.

Lemma sorted_agree (array : list A) :
  agree_on key key' array -> sorted key array = Ok (stable_sort key' array).
Proof.
  intros Ha. unfold sorted.
  destruct (decorate_agree array Ha) as (d & Hd & Hm & Hw).
  rewrite <- Hm in Ha.
  destruct (sort_keyed_agree d Hw Ha) as (u & Hu & Hmu & _).
  now rewrite Hd, Hu, Hmu, Hm.
Qed.

(** With a key that can be pickled, the parallel sort computes the
    stable sort, whatever the depth. *)
Lemma parallel_merge_sort_agree (array : list A) (max_depth : Z) :
  agree_on key key' array ->
  parallel_merge_sort (Def key) array max_depth = Ok (stable_sort key' array).
Proof.
  remember (Z.to_nat max_depth) as n eqn:Hn.
  revert array max_depth Hn.
  induction n as [n IH] using lt_wf_ind; intros array max_depth Hn Ha.
  rewrite parallel_merge_sort_Def.
  destruct ((length array <=? 1) || (max_depth <=? 0)%Z) eqn:Hc.
  - now apply sorted_agree.
  - apply orb_false_iff in Hc. destruct Hc as [_ Hd]. apply Z.leb_gt in Hd.
    cbv zeta. set (mid := length array / 2).
    assert (Hm : Z.to_nat (max_depth - 1) < n) by (subst n; lia).
    assert (Hal : agree_on key key' (firstn mid array)).
    { apply (agree_on_incl array); [|exact Ha].
      intros z Hz. rewrite <- (firstn_skipn mid array). apply in_or_app. now left. }
    assert (Har : agree_on key key' (skipn mid array)).
    { apply (agree_on_incl array); [|exact Ha].
      intros z Hz. rewrite <- (firstn_skipn mid array). apply in_or_app. now right. }
    rewrite (IH _ Hm _ _ eq_refl Hal), (IH _ Hm _ _ eq_refl Har).
    rewrite merge_agree.
    + now rewrite stable_sort_app, firstn_skipn.
    + apply (agree_on_incl array); [|exact Ha].
      intros z Hz. rewrite <- (firstn_skipn mid array).
      apply (Permutation_in z
               (Permutation_app (Permutation_sym (stable_sort_perm key' _))
                                (Permutation_sym (stable_sort_perm key' _)))).
      exact Hz.
Qed.

End Refinement.

(** Key functions that never raise, into totally ordered keys. *)

Section TotalRefinement.

Context {A K : Type} `{TotalOrd K}.
Variable key : A -> K.

Lemma agree_on_total (array : list A) : agree_on (total key) key array.
Proof.
  intros x y _ _. exists (key x), (key y).
  repeat split; [apply py_le_leb|apply py_lt_leb].
Qed.

Lemma merge_total (l r : list A) : merge (total key) l r = Ok (merge_lists key l r).
Proof. apply merge_agree, agree_on_total. Qed.

Lemma sorted_total (l : list A) : sorted (total key) l = Ok (stable_sort key l).
Proof. apply sorted_agree, agree_on_total. Qed.


(** The model of the builtin is the only stable sort: a list in
    ascending order that is stable with respect to the input is the
    list [sorted] returns. *)
Lemma sorted_unique (input out : list A) :
  ascending key out -> stable_wrt key input out ->
  sorted (total key) input = Ok out.
Proof.
  intros Ha Hs. rewrite sorted_total. f_equal. symmetry.
  now apply stable_sort_unique.
Qed.

End TotalRefinement.

(** ** Key functions that may raise *)

Section FallibleKeys.

Context {A K : Type} `{TotalOrd K}.
Variable key : A -> result K.








End FallibleKeys.


(** ** The sorting engine: specification *)










(** C4. [merge] of two lists that are each in ascending key order
    returns one list with exactly the elements of both, in ascending
    key order.  With the identity key, [merge([1,3,5],[2,2,4])] is
    [[1,2,2,3,4,5]], [merge([],[1,2])] is [[1,2]] and [merge([1],[1])]
    is [[1,1]]; of two elements with equal keys the left one comes
    first; and when an input is empty the result is the other input
    (this last for every key function, since none is called). *)
Theorem merge_correct :
  (forall {A K : Type} `{TotalOrd K} (key : A -> K) (left right : list A),
     ascending key left -> ascending key right ->
     exists out : list A,
       merge (total key) left right = Ok out /\
       Permutation (left ++ right) out /\
       ascending key out) /\
  merge identity_key [1; 3; 5]%Z [2; 2; 4]%Z = Ok [1; 2; 2; 3; 4; 5]%Z /\
  merge identity_key [] [1; 2]%Z = Ok [1; 2]%Z /\
  merge identity_key [1]%Z [1]%Z = Ok [1; 1]%Z /\
  (forall {A K : Type} `{TotalOrd K} (key : A -> K) (x y : A),
     key x = key y -> merge (total key) [x] [y] = Ok [x; y]) /\
  (forall {A K : Type} `{PyOrd K} (key : A -> result K) (right : list A),
     merge key [] right = Ok right) /\
  (forall {A K : Type} `{PyOrd K} (key : A -> result K) (left : list A),
     merge key left [] = Ok left).
Proof.
  split; [|split; [|split; [|split; [|split; [|split]]]]].
  - intros A K O T key left right Hl Hr.
    exists (merge_lists key left right). split; [|split].
    + apply merge_total.
    + apply merge_lists_perm.
    + apply StronglySorted_ascending.
      apply merge_lists_sorted; now apply StronglySorted_ascending.
  - reflexivity.
  - reflexivity.
  - reflexivity.
  - intros A K O T key x y Hxy.
    rewrite merge_total, merge_lists_cons, Hxy, leb_refl. reflexivity.
  - intros A K O key right. apply merge_nil_l.
  - intros A K O key left. apply merge_nil_r.
Qed.

Lemma merge_correct_witness :
  (exists out : list Z,
     merge (total (fun z : Z => z)) [1; 3; 5]%Z [2; 2; 4]%Z = Ok out /\
     Permutation ([1; 3; 5] ++ [2; 2; 4])%Z out /\
     ascending (fun z : Z => z) out) /\
  merge (total fst) [(1%Z, true)] [(1%Z, false)] = Ok [(1%Z, true); (1%Z, false)].
Proof.
  split.
  - apply (proj1 merge_correct Z Z _ _ (fun z : Z => z)).
    + intros i x y Hx Hy. unfold kle.
      do 3 (destruct i as [|i];
            [simpl in Hx, Hy; inversion Hx; inversion Hy; reflexivity|]).
      destruct i; discriminate.
    + intros i x y Hx Hy. unfold kle.
      do 3 (destruct i as [|i];
            [simpl in Hx, Hy; inversion Hx; inversion Hy; reflexivity|]).
      destruct i; discriminate.
  - apply (proj1 (proj2 (proj2 (proj2 (proj2 merge_correct))))
             (Z * bool)%type Z _ _ fst (1%Z, true) (1%Z, false)).
    reflexivity.
Defined.

(** C5. Base case: when the input has at most one element or
    [max_depth <= 0] (negative depths included), [parallel_merge_sort]
    returns exactly what [sorted] returns for the same key function,
    whether that function can be pickled or not: the recursive branch
    is not taken and nothing is submitted.  So the empty list gives the
    empty list, and a single element [x] gives [[x]] at every depth
    (after the one call of [key] on [x] that [sorted] makes). *)
Theorem parallel_merge_sort_base_case :
  (forall {A K : Type} `{PyOrd K} (key : pyfun A K)
          (array : list A) (max_depth : Z),
     (length array <= 1)%nat \/ (max_depth <= 0)%Z ->
     parallel_merge_sort key array max_depth = sorted key array) /\
  (forall {A K : Type} `{PyOrd K} (key : pyfun A K) (max_depth : Z),
     parallel_merge_sort key [] max_depth = Ok []) /\
  (forall {A K : Type} `{PyOrd K} (key : A -> K) (can_pickle : bool)
          (x : A) (max_depth : Z),
     parallel_merge_sort (PyFun (total key) can_pickle) [x] max_depth = Ok [x]) /\
  (forall {A K : Type} `{PyOrd K} (key : pyfun A K) (x : A) (max_depth : Z),
     parallel_merge_sort key [x] max_depth = (_ <- key x ;; Ok [x])).
Proof.
  assert (Hbase : forall {A K : Type} `{PyOrd K} (key : pyfun A K)
                         (array : list A) (max_depth : Z),
             (length array <= 1)%nat \/ (max_depth <= 0)%Z ->
             parallel_merge_sort key array max_depth = sorted key array).
  { intros A K O key array max_depth Hb. rewrite parallel_merge_sort_eq.
    assert (Hc : (length array <=? 1) || (max_depth <=? 0)%Z = true).
    { apply orb_true_iff. destruct Hb as [Hl|Hd].
      - left. now apply Nat.leb_le.
      - right. now apply Z.leb_le. }
    now rewrite Hc. }
  split; [exact Hbase|split; [|split]].
  - intros A K O key max_depth. rewrite Hbase by (left; simpl; lia). reflexivity.
  - intros A K O key can_pickle x max_depth.
    rewrite Hbase by (left; simpl; lia). reflexivity.
  - intros A K O key x max_depth. rewrite Hbase by (left; simpl; lia).
    unfold sorted. simpl. now destruct (key x).
Qed.

Lemma parallel_merge_sort_base_case_witness :
  parallel_merge_sort identity_key [3; 1; 2]%Z (-1) = sorted identity_key [3; 1; 2]%Z.
Proof.
  apply (proj1 parallel_merge_sort_base_case Z Z _ identity_key [3; 1; 2]%Z (-1)%Z).
  right. lia.
Defined.

(** ** Depth policy: specification *)

(** C6. [get_optimal_max_depth] returns a non-negative integer: 0 when
    the available parallelism [P] is below 2, and otherwise the floor
    of the base-2 logarithm of [P], that is the [d] with
    [2^d <= P < 2^(d+1)]; it returns 0 for [P = 1] and 3 for [P = 8]. *)
Theorem get_optimal_max_depth_spec (P : Z) :
  (0 <= get_optimal_max_depth P)%Z /\
  ((P < 2)%Z /\ get_optimal_max_depth P = 0%Z \/
   (2 <= P)%Z /\
   (2 ^ get_optimal_max_depth P <= P < 2 ^ (get_optimal_max_depth P + 1))%Z) /\
  get_optimal_max_depth 1 = 0%Z /\
  get_optimal_max_depth 8 = 3%Z.
Proof.
  unfold get_optimal_max_depth, int_log2.
  destruct (Z.ltb_spec P 2) as [Hlt|Hge].
  - repeat split; try reflexivity. left. split; [exact Hlt|reflexivity].
  - repeat split; try reflexivity.
    + apply Z.log2_nonneg.
    + right. split; [exact Hge|].
      replace (Z.log2 P + 1)%Z with (Z.succ (Z.log2 P)) by lia.
      apply Z.log2_spec. lia.
Qed.

(** ** Failing keys *)

Section KeyFailure.

Context {A K : Type} `{PyOrd K}.
Variable key : A -> result K.

Lemma decorate_fails (array : list A) (x : A) :
  In x array -> fails (key x) -> fails (decorate key array).
Proof.
  induction array as [|a array IH]; intros Hin Hx; [contradiction|].
  simpl. destruct (key a) as [k|e] eqn:Ha; [|now exists e].
  destruct Hin as [->|Hin].
  - destruct Hx as [e He]. congruence.
  - destruct (IH Hin Hx) as [e He]. rewrite He. now exists e.
Qed.

Lemma sorted_fails (array : list A) (x : A) :
  In x array -> fails (key x) -> fails (sorted key array).
Proof.
  intros Hin Hx. destruct (decorate_fails array x Hin Hx) as [e He].
  exists e. unfold sorted. now rewrite He.
Qed.

End KeyFailure.

(** A key that raises on one element makes the whole call raise. *)
Lemma parallel_merge_sort_fails {A K : Type} `{PyOrd K} (key : pyfun A K)
    (array : list A) (max_depth : Z) (x : A) :
  In x array -> fails (key x) -> fails (parallel_merge_sort key array max_depth).
Proof.
  remember (Z.to_nat max_depth) as n eqn:Hn.
  revert array max_depth Hn.
  induction n as [n IH] using lt_wf_ind; intros array max_depth Hn Hin Hx.
  rewrite parallel_merge_sort_eq.
  destruct ((length array <=? 1) || (max_depth <=? 0)%Z) eqn:Hc.
  - now apply sorted_fails with x.
  - apply orb_false_iff in Hc. destruct Hc as [_ Hd]. apply Z.leb_gt in Hd.
    cbv zeta. unfold submit.
    destruct (picklable key); [|now exists PicklingError].
    assert (Hm : Z.to_nat (max_depth - 1) < n) by (subst n; lia).
    rewrite <- (firstn_skipn (length array / 2) array) in Hin.
    apply in_app_or in Hin. destruct Hin as [Hl|Hr].
    + destruct (IH _ Hm _ _ eq_refl Hl Hx) as [e He]. rewrite He. now exists e.
    + destruct (parallel_merge_sort key (firstn _ array) _) as [ls|e]; [|now exists e].
      destruct (IH _ Hm _ _ eq_refl Hr Hx) as [e He]. rewrite He. now exists e.
Qed.

(** ** Card keys: specification *)

Lemma dict_get_not_mem (d : list (pyval * Z)) (k : pyval) :
  dict_mem d k = false -> dict_get d k = Raise KeyError.
Proof.
  unfold dict_mem, dict_get.
  induction d as [|entry d IH]; cbn [existsb find]; [reflexivity|].
  destruct (py_eq (fst entry) k); cbn [orb]; [intros Hf; discriminate Hf|exact IH].
Qed.

Lemma malformed_key (c : Card.t) : malformed c -> Card.key c = Raise KeyError.
Proof.
  intros [Hs|[Hj Hr]]; unfold Card.key.
  - rewrite (dict_get_not_mem _ _ Hs).
    now destruct (py_eq (Card.suit c) (PStr "comodin")).
  - unfold comodin in Hj. rewrite Hj, (dict_get_not_mem _ _ Hr).
    unfold dict_get at 1. now destruct (find _ suits_order).
Qed.

Lemma dict_get_mem (d : list (pyval * Z)) (k : pyval) :
  dict_mem d k = true -> succeeds (dict_get d k).
Proof.
  unfold dict_mem, dict_get.
  induction d as [|entry d IH]; cbn [existsb find]; [discriminate|].
  destruct (py_eq (fst entry) k); cbn [orb]; [|exact IH].
  intros _. now exists (snd entry).
Qed.

(** The malformed cards are exactly those on which [Card.key] raises. *)
Lemma key_fails_iff_malformed (c : Card.t) : fails (Card.key c) <-> malformed c.
Proof.
  split.
  - intros [e He]. unfold malformed, Card.key, comodin in *.
    destruct (dict_mem suits_order (Card.suit c)) eqn:Hs; [right|now left].
    destruct (dict_get_mem _ _ Hs) as [n Hn]. rewrite Hn in He.
    destruct (py_eq (Card.suit c) (PStr "comodin")); [discriminate|].
    split; [reflexivity|].
    destruct (dict_mem ranks_order (Card.rank c)) eqn:Hr; [|reflexivity].
    destruct (dict_get_mem _ _ Hr) as [m Hm]. rewrite Hm in He. discriminate.
  - intros Hm. exists KeyError. now apply malformed_key.
Qed.

(** C7. A malformed card makes the key extractor raise ([KeyError])
    for that card, and then the whole [parallel_merge_sort] call
    raises, whatever the depth and the other cards: no list, partially
    sorted or merged, is returned. *)
Theorem malformed_card_fails_sort
    (deck : list Card.t) (max_depth : Z) (c : Card.t) :
  In c deck -> malformed c ->
  card_sort_key c = Raise KeyError /\
  fails (parallel_merge_sort card_sort_key deck max_depth) /\
  (forall out : list Card.t,
     parallel_merge_sort card_sort_key deck max_depth <> Ok out).
Proof.
  intros Hin Hbad.
  assert (Hkey : card_sort_key c = Raise KeyError) by now apply malformed_key.
  assert (Hf : fails (parallel_merge_sort card_sort_key deck max_depth)).
  { apply parallel_merge_sort_fails with c; [exact Hin|].
    now exists KeyError. }
  split; [exact Hkey|split; [exact Hf|]].
  intros out Hout. destruct Hf as [e He]. congruence.
Qed.

Lemma malformed_card_fails_sort_witness :
  card_sort_key (Card.mk (PStr "espadas") (PStr "7")) = Raise KeyError /\
  fails (parallel_merge_sort card_sort_key
           [Card.mk (PStr "picas") (PStr "Q");
            Card.mk (PStr "espadas") (PStr "7");
            Card.mk (PStr "comodin") (PInt 1)] 1) /\
  (forall out : list Card.t,
     parallel_merge_sort card_sort_key
       [Card.mk (PStr "picas") (PStr "Q");
        Card.mk (PStr "espadas") (PStr "7");
        Card.mk (PStr "comodin") (PInt 1)] 1 <> Ok out).
Proof.
  apply (malformed_card_fails_sort
           [Card.mk (PStr "picas") (PStr "Q");
            Card.mk (PStr "espadas") (PStr "7");
            Card.mk (PStr "comodin") (PInt 1)] 1
           (Card.mk (PStr "espadas") (PStr "7"))).
  - simpl. right. left. reflexivity.
  - left. reflexivity.
Defined.

Lemma ordinary_suit_order (s : pyval) (n : Z) :
  dict_get suits_order s = Ok n -> py_eq s comodin = false -> (0 <= n < 4)%Z.
Proof.
  unfold dict_get, suits_order, comodin.
  destruct s as [z|s]; cbn -[String.eqb]; [discriminate|].
  intros Hget Hj.
  repeat match type of Hget with
         | context [String.eqb ?a s] =>
             destruct (String.eqb_spec a s);
             [try (inversion Hget; lia) | cbn -[String.eqb] in Hget]
         end.
  - subst s. discriminate.
  - discriminate.
Qed.

(** C10. A joker (suit ["comodin"]) has the key [(4, rank)] with its
    rank as it is, whatever the rank: [ranks_order] is not consulted.
    Every card of another suit whose key can be computed has a key
    strictly below every joker's, and two jokers compare as their raw
    ranks do. *)
Theorem joker_key :
  (forall r : pyval, Card.key (Card.mk comodin r) = Ok (4%Z, r)) /\
  (forall (c : Card.t) (k : Z * pyval) (r : pyval),
     Card.key c = Ok k -> py_eq (Card.suit c) comodin = false ->
     py_lt k (4%Z, r) = Ok true /\ py_le (4%Z, r) k = Ok false) /\
  (forall r1 r2 : pyval,
     py_le (4%Z, r1) (4%Z, r2) = (if py_eq r1 r2 then Ok true else py_le r1 r2) /\
     py_lt (4%Z, r1) (4%Z, r2) = (if py_eq r1 r2 then Ok false else py_lt r1 r2)).
Proof.
  split; [|split].
  - intros r. reflexivity.
  - intros c k r Hk Hj. unfold Card.key in Hk. unfold comodin in Hj.
    rewrite Hj in Hk.
    destruct (dict_get suits_order (Card.suit c)) as [n|] eqn:Hs; [|discriminate].
    destruct (dict_get ranks_order (Card.rank c)) as [m|]; [|discriminate].
    inversion Hk; subst k. apply ordinary_suit_order in Hs; [|exact Hj].
    cbn -[Z.eqb Z.leb Z.ltb].
    destruct (Z.eqb_spec n 4) as [->|_]; [lia|].
    destruct (Z.eqb_spec 4 n) as [<-|_]; [lia|]. cbn [negb].
    split; f_equal; [apply Z.ltb_lt | apply Z.leb_gt]; lia.
  - intros r1 r2. cbn -[py_eq PyOrd_pyval]. split; now destruct (py_eq r1 r2).
Qed.

Lemma joker_key_witness :
  py_lt (2%Z, PInt 12) (4%Z, PStr "x") = Ok true /\
  py_le (4%Z, PStr "x") (2%Z, PInt 12) = Ok false.
Proof.
  apply (proj1 (proj2 joker_key) (Card.mk (PStr "picas") (PStr "Q"))).
  - reflexivity.
  - reflexivity.
Defined.

(** ** Termination *)

Lemma half_lt {n : nat} : 1 < n -> 0 < n / 2 < n.
Proof.
  intros Hn. split.
  - apply Nat.div_str_pos. lia.
  - apply Nat.div_lt; lia.
Qed.

Lemma recursive_call_smaller {A : Type} {caller callee : list A * Z} :
  recursive_call caller callee ->
  snd callee = (snd caller - 1)%Z /\
  (0 < snd caller)%Z /\
  length (fst callee) < length (fst caller).
Proof.
  intros Hc. destruct Hc as [array d Hb|array d Hb]; cbn [fst snd];
    apply orb_false_iff in Hb; destruct Hb as [Hl Hd];
    apply Nat.leb_gt in Hl; apply Z.leb_gt in Hd;
    destruct (half_lt Hl) as [Hh1 Hh2];
    (split; [reflexivity|split; [exact Hd|]]).
  - rewrite length_firstn. lia.
  - rewrite length_skipn. lia.
Qed.

(** C8. [parallel_merge_sort] terminates on every list, key function
    and integer depth: the chains of nested recursive calls are finite
    (the relation between a call and the calls it makes is
    well-founded), each recursive call receives [max_depth - 1] and a
    strictly shorter half, a call makes no recursive call exactly when
    the depth is zero or below or the list has at most one element, and
    the function is the one defined by these calls, submitted to the
    executor. *)
Theorem parallel_merge_sort_terminates {A K : Type} `{PyOrd K} :
  well_founded (fun callee caller : list A * Z => recursive_call caller callee) /\
  (forall caller callee : list A * Z,
     recursive_call caller callee ->
     snd callee = (snd caller - 1)%Z /\
     length (fst callee) < length (fst caller)) /\
  (forall (array : list A) (max_depth : Z),
     (forall callee, ~ recursive_call (array, max_depth) callee) <->
     (length array <= 1 \/ (max_depth <= 0)%Z)) /\
  (forall (key : pyfun A K) (array : list A) (max_depth : Z),
     parallel_merge_sort key array max_depth =
     if is_base_case array max_depth
     then sorted key array
     else
       left_sorted <- submit key
                        (parallel_merge_sort key
                           (firstn (length array / 2) array) (max_depth - 1)) ;;
       right_sorted <- submit key
                         (parallel_merge_sort key
                            (skipn (length array / 2) array) (max_depth - 1)) ;;
       merge key left_sorted right_sorted).
Proof.
  split; [|split; [|split]].
  - apply (well_founded_lt_compat _ (fun call => Z.to_nat (snd call))).
    intros callee caller Hc.
    destruct (recursive_call_smaller Hc) as (Hd & Hpos & _). lia.
  - intros caller callee Hc.
    destruct (recursive_call_smaller Hc) as (Hd & _ & Hl). now split.
  - intros array max_depth. split.
    + intros Hnone.
      destruct (is_base_case array max_depth) eqn:Hb.
      * apply orb_true_iff in Hb. destruct Hb as [Hl|Hd].
        -- left. now apply Nat.leb_le.
        -- right. now apply Z.leb_le.
      * exfalso. exact (Hnone _ (call_left array max_depth Hb)).
    + intros Hbase callee Hc.
      assert (Hb : is_base_case array max_depth = false).
      { inversion Hc; assumption. }
      apply orb_false_iff in Hb. destruct Hb as [Hl Hd].
      apply Nat.leb_gt in Hl. apply Z.leb_gt in Hd. lia.
  - intros key array max_depth. apply parallel_merge_sort_eq.
Qed.

Lemma parallel_merge_sort_terminates_witness :
  snd (firstn (length [3; 1; 2]%Z / 2) [3; 1; 2]%Z, (2 - 1)%Z) = (snd ([3; 1; 2]%Z, 2%Z) - 1)%Z /\
  length (fst (firstn (length [3; 1; 2]%Z / 2) [3; 1; 2]%Z, (2 - 1)%Z)) <
  length (fst ([3; 1; 2]%Z, 2%Z)).
Proof.
  apply (proj1 (proj2 (@parallel_merge_sort_terminates Z Z _))
           ([3; 1; 2]%Z, 2%Z)).
  apply call_left. reflexivity.
Defined.

(** ** The store: frame properties *)

Section StoreFacts.

Context {A K : Type} `{PyOrd K}.
Variable key : A -> result K.

Lemma length_assign (h : store A) (p : ref) (v : list A) :
  length (assign h p v) = length h.
Proof.
  revert p. induction h as [|x h IH]; intros [|p]; simpl; auto.
Qed.

Lemma deref_assign_eq (h : store A) (p : ref) (v : list A) :
  p < length h -> deref (assign h p v) p = v.
Proof.
  revert p. induction h as [|x h IH]; intros [|p] Hp; simpl in *; try lia.
  - reflexivity.
  - apply IH. lia.
Qed.

Lemma deref_assign_neq (h : store A) (p q : ref) (v : list A) :
  q <> p -> deref (assign h p v) q = deref h q.
Proof.
  revert p q. induction h as [|x h IH]; intros [|p] [|q] Hq; simpl; try reflexivity.
  - contradiction.
  - apply IH. lia.
Qed.

Lemma deref_alloc_old (h : store A) (v : list A) (p : ref) :
  p < length h -> deref (h ++ [v]) p = deref h p.
Proof. intros Hp. unfold deref. now apply app_nth1. Qed.

Lemma deref_alloc_new (h : store A) (v : list A) :
  deref (h ++ [v]) (length h) = v.
Proof. unfold deref. apply nth_middle. Qed.

Lemma length_alloc (h : store A) (v : list A) :
  length (h ++ [v]) = S (length h).
Proof. rewrite length_app. simpl. lia. Qed.

Lemma preserves_refl (h : store A) : preserves h h.
Proof. split; auto. Qed.

Lemma preserves_trans {h1 h2 h3 : store A} :
  preserves h1 h2 -> preserves h2 h3 -> preserves h1 h3.
Proof.
  intros [Hl1 Hd1] [Hl2 Hd2]. split; [lia|].
  intros p Hp. rewrite Hd2 by lia. now apply Hd1.
Qed.

Lemma preserves_alloc (h : store A) (v : list A) : preserves h (h ++ [v]).
Proof.
  split; [rewrite length_alloc; lia|]. intros p Hp. now apply deref_alloc_old.
Qed.

Lemma only_changes_refl (q : ref) (h : store A) : only_changes q h h.
Proof. split; auto. Qed.

Lemma only_changes_trans {q : ref} {h1 h2 h3 : store A} :
  only_changes q h1 h2 -> only_changes q h2 h3 -> only_changes q h1 h3.
Proof.
  intros [Hl1 Hd1] [Hl2 Hd2]. split; [congruence|].
  intros p Hp. rewrite Hd2 by exact Hp. now apply Hd1.
Qed.

Lemma only_changes_assign (q : ref) (h : store A) (v : list A) :
  only_changes q h (assign h q v).
Proof.
  split; [apply length_assign|]. intros p Hp. now apply deref_assign_neq.
Qed.

(** An update of an object allocated after [h] preserves [h]. *)
Lemma only_changes_preserves {q : ref} {h0 h h' : store A} :
  length h0 <= q -> preserves h0 h -> only_changes q h h' -> preserves h0 h'.
Proof.
  intros Hq [Hl Hd] [Hl' Hd']. split; [lia|].
  intros p Hp. rewrite Hd' by lia. now apply Hd.
Qed.

Lemma merge_while_eq (fuel : nat) (l r merged : ref) (i j : nat) (h : store A) :
  merge_while key fuel l r merged i j h =
  if (i <? length (deref h l)) && (j <? length (deref h r))
  then
    match fuel with
    | 0 => OutOfFuel
    | S fuel' =>
        reading h (index (deref h l) i) (fun x =>
        reading h (key x) (fun kx =>
        reading h (index (deref h r) j) (fun y =>
        reading h (key y) (fun ky =>
        reading h (py_le kx ky) (fun b =>
          if b
          then merge_while key fuel' l r merged (S i) j (append h merged x)
          else merge_while key fuel' l r merged i (S j) (append h merged y))))))
    end
  else Returns h (i, j).
Proof. destruct fuel; reflexivity. Qed.

(** The call ends at this point, in the store as it is. *)
Ltac stops_here := split; [apply only_changes_refl|reflexivity].

(** The loop over the store computes what [merge_loop] computes on the
    contents, and updates no object but [merged]. *)
Lemma merge_while_spec (fuel : nat) :
  forall (l r merged : ref) (i j : nat) (h : store A),
    l <> merged -> r <> merged -> merged < length h ->
    (length (deref h l) - i) + (length (deref h r) - j) <= fuel ->
    match merge_while key fuel l r merged i j h with
    | Returns h' (i', j') =>
        only_changes merged h h' /\
        merge_loop key (deref h l) (deref h r) i j (deref h merged) =
        Ok (deref h' merged ++ skipn i' (deref h l) ++ skipn j' (deref h r))
    | Raises h' e =>
        only_changes merged h h' /\
        merge_loop key (deref h l) (deref h r) i j (deref h merged) = Raise e
    | OutOfFuel => False
    end.
Proof.
  induction fuel as [|fuel IH]; intros l r merged i j h Hl Hr Hm Hfuel;
    rewrite merge_while_eq, merge_loop_eq;
    destruct ((i <? length (deref h l)) && (j <? length (deref h r))) eqn:Hc;
    try stops_here.
  - apply andb_true_iff in Hc. destruct Hc as [Hi Hj].
    apply Nat.ltb_lt in Hi, Hj. lia.
  - apply andb_true_iff in Hc. destruct Hc as [Hi Hj].
    apply Nat.ltb_lt in Hi, Hj.
    destruct (index (deref h l) i) as [x|e]; cbn [reading];
      [|stops_here].
    destruct (key x) as [kx|e]; cbn [reading];
      [|stops_here].
    destruct (index (deref h r) j) as [y|e]; cbn [reading];
      [|stops_here].
    destruct (key y) as [ky|e]; cbn [reading];
      [|stops_here].
    destruct (py_le kx ky) as [b|e]; cbn [reading];
      [|stops_here].
    assert (Hstep : forall z : A,
              only_changes merged h (append h merged z) /\
              deref (append h merged z) l = deref h l /\
              deref (append h merged z) r = deref h r /\
              deref (append h merged z) merged = deref h merged ++ [z] /\
              merged < length (append h merged z)).
    { intros z. unfold append. repeat split.
      - apply length_assign.
      - intros p Hp. now apply deref_assign_neq.
      - now apply deref_assign_neq.
      - now apply deref_assign_neq.
      - now apply deref_assign_eq.
      - now rewrite length_assign. }
    destruct b.
    + destruct (Hstep x) as (Hoc & Hdl & Hdr & Hdm & Hlen).
      specialize (IH l r merged (S i) j (append h merged x) Hl Hr Hlen).
      rewrite Hdl, Hdr, Hdm in IH.
      destruct (merge_while key fuel l r merged (S i) j (append h merged x))
        as [h' [i' j']|h' e|].
      * destruct IH as [Hoc' Heq]; [lia|]. split; [|exact Heq].
        exact (only_changes_trans Hoc Hoc').
      * destruct IH as [Hoc' Heq]; [lia|]. split; [|exact Heq].
        exact (only_changes_trans Hoc Hoc').
      * apply IH. lia.
    + destruct (Hstep y) as (Hoc & Hdl & Hdr & Hdm & Hlen).
      specialize (IH l r merged i (S j) (append h merged y) Hl Hr Hlen).
      rewrite Hdl, Hdr, Hdm in IH.
      destruct (merge_while key fuel l r merged i (S j) (append h merged y))
        as [h' [i' j']|h' e|].
      * destruct IH as [Hoc' Heq]; [lia|]. split; [|exact Heq].
        exact (only_changes_trans Hoc Hoc').
      * destruct IH as [Hoc' Heq]; [lia|]. split; [|exact Heq].
        exact (only_changes_trans Hoc Hoc').
      * apply IH. lia.
Qed.

(** [merged.extend(xs[i:])]: the slice is a new object, [merged] grows
    by its contents, and nothing else changes. *)
Lemma extend_slice_spec (h : store A) (merged xs : ref) (i : nat) :
  merged < length h -> xs < length h -> xs <> merged ->
  let h' := extend (h ++ [skipn i (deref h xs)]) merged (length h) in
  length h' = S (length h) /\
  deref h' merged = deref h merged ++ skipn i (deref h xs) /\
  forall p : ref, p < length h -> p <> merged -> deref h' p = deref h p.
Proof.
  intros Hm Hxs Hne. unfold extend. cbv zeta.
  rewrite deref_alloc_new, (deref_alloc_old _ _ _ Hm).
  split; [|split].
  - now rewrite length_assign, length_alloc.
  - apply deref_assign_eq. rewrite length_alloc. lia.
  - intros p Hp Hpm. rewrite deref_assign_neq by exact Hpm.
    now apply deref_alloc_old.
Qed.

(** [merge] over the store: every object that existed is unchanged (the
    two arguments among them), the list returned is a new object, and
    its contents are what [merge] computes on the contents of its
    arguments; an exception leaves the objects unchanged as well. *)
Lemma merge_st_spec (l r : ref) (h : store A) :
  l < length h -> r < length h ->
  match merge_st key l r h with
  | Returns h' out =>
      preserves h h' /\
      length h <= out < length h' /\
      merge key (deref h l) (deref h r) = Ok (deref h' out)
  | Raises h' e =>
      preserves h h' /\ merge key (deref h l) (deref h r) = Raise e
  | OutOfFuel => False
  end.
Proof.
  intros Hl Hr. unfold merge_st, alloc, merge.
  set (h1 := h ++ [[]]). set (merged := length h).
  assert (Hlen1 : length h1 = S (length h)) by apply length_alloc.
  assert (Hdl : deref h1 l = deref h l) by now apply deref_alloc_old.
  assert (Hdr : deref h1 r = deref h r) by now apply deref_alloc_old.
  assert (Hdm : deref h1 merged = []) by apply deref_alloc_new.
  pose proof (merge_while_spec (length (deref h1 l) + length (deref h1 r))
                l r merged 0 0 h1) as Hw.
  rewrite Hdl, Hdr, Hdm in Hw. rewrite Hdl, Hdr.
  destruct (merge_while key (length (deref h l) + length (deref h r))
              l r merged 0 0 h1) as [h2 [i j]|h2 e|].
  - destruct Hw as [[Hlen2 Hd2] Heq]; unfold merged in *; try lia.
    unfold slice_from, alloc.
    assert (H2l : deref h2 l = deref h l) by (rewrite Hd2 by lia; exact Hdl).
    assert (H2r : deref h2 r = deref h r) by (rewrite Hd2 by lia; exact Hdr).
    destruct (extend_slice_spec h2 (length h) l i) as (Hlen4 & Hm4 & Hd4); try lia.
    set (h4 := extend (h2 ++ [skipn i (deref h2 l)]) (length h) (length h2)) in *.
    assert (H4r : deref h4 r = deref h r) by (rewrite Hd4 by lia; exact H2r).
    destruct (extend_slice_spec h4 (length h) r j) as (Hlen6 & Hm6 & Hd6); try lia.
    set (h6 := extend (h4 ++ [skipn j (deref h4 r)]) (length h) (length h4)) in *.
    split; [|split].
    + split; [lia|]. intros p Hp.
      rewrite Hd6, Hd4, Hd2 by lia. apply deref_alloc_old. exact Hp.
    + lia.
    + rewrite Heq, Hm6, Hm4, H4r, H2l, <- app_assoc. reflexivity.
  - destruct Hw as [[Hlen2 Hd2] Heq]; unfold merged in *; try lia.
    split; [|exact Heq]. split; [lia|].
    intros p Hp. rewrite Hd2 by lia. now apply deref_alloc_old.
  - apply Hw; unfold merged; lia.
Qed.

End StoreFacts.

Section StoreWorkersFacts.

Context {A K : Type} `{PyOrd K}.
Variable key : pyfun A K.

Lemma parallel_merge_sort_st_eq (array : ref) (max_depth : Z) (h : store A) :
  parallel_merge_sort_st key array max_depth h =
  if (length (deref h array) <=? 1) || (max_depth <=? 0)%Z
  then sorted_st key array h
  else
    let mid := length (deref h array) / 2 in
    let (h1, left_part) := slice_to h array mid in
    let (h2, right_part) := slice_from h1 array mid in
    let left_future :=
      submit_st key
        (parallel_merge_sort_st key 0 (max_depth - 1) [deref h2 left_part]) in
    let right_future :=
      submit_st key
        (parallel_merge_sort_st key 0 (max_depth - 1) [deref h2 right_part]) in
    match future_result h2 left_future with
    | Returns h3 left_sorted =>
        match future_result h3 right_future with
        | Returns h4 right_sorted => merge_st key left_sorted right_sorted h4
        | Raises h4 e => Raises h4 e
        | OutOfFuel => OutOfFuel
        end
    | Raises h3 e => Raises h3 e
    | OutOfFuel => OutOfFuel
    end.
Proof.
  funelim (parallel_merge_sort_st key array max_depth h).
  - rewrite e. reflexivity.
  - rewrite Hrec. reflexivity.
Qed.

(** [parallel_merge_sort] over the store: every object that existed is
    unchanged (the argument among them), the list returned is a new
    object, and its contents are what [parallel_merge_sort] computes on
    the contents of the argument; so it is when the call raises, the
    [PicklingError] of a key that cannot be pickled included. *)
Lemma parallel_merge_sort_st_spec (max_depth : Z) :
  forall (array : ref) (h : store A),
    array < length h ->
    match parallel_merge_sort_st key array max_depth h with
    | Returns h' out =>
        preserves h h' /\
        length h <= out < length h' /\
        parallel_merge_sort key (deref h array) max_depth = Ok (deref h' out)
    | Raises h' e =>
        preserves h h' /\
        parallel_merge_sort key (deref h array) max_depth = Raise e
    | OutOfFuel => False
    end.
Proof.
  remember (Z.to_nat max_depth) as n eqn:Hn. revert max_depth Hn.
  induction n as [n IH] using lt_wf_ind; intros max_depth Hn array h Ha.
  rewrite parallel_merge_sort_st_eq, parallel_merge_sort_eq.
  destruct ((length (deref h array) <=? 1) || (max_depth <=? 0)%Z) eqn:Hc.
  - unfold sorted_st, alloc.
    destruct (sorted key (deref h array)) as [v|e]; cbn [reading].
    + split; [apply preserves_alloc|split].
      * rewrite length_alloc. lia.
      * now rewrite deref_alloc_new.
    + split; [apply preserves_refl|reflexivity].
  - apply orb_false_iff in Hc. destruct Hc as [_ Hd]. apply Z.leb_gt in Hd.
    assert (Hm : Z.to_nat (max_depth - 1) < n) by (subst n; lia).
    cbv zeta. unfold slice_to, slice_from, alloc.
    set (mid := length (deref h array) / 2).
    set (h1 := h ++ [firstn mid (deref h array)]).
    assert (Hlen1 : length h1 = S (length h)) by apply length_alloc.
    assert (H1a : deref h1 array = deref h array) by now apply deref_alloc_old.
    rewrite H1a.
    set (h2 := h1 ++ [skipn mid (deref h array)]).
    assert (Hlen2 : length h2 = S (length h1)) by apply length_alloc.
    assert (H2l : deref h2 (length h) = firstn mid (deref h array)).
    { unfold h2. rewrite deref_alloc_old by lia. apply deref_alloc_new. }
    assert (H2r : deref h2 (length h1) = skipn mid (deref h array))
      by apply deref_alloc_new.
    assert (Hp2 : preserves h h2).
    { exact (preserves_trans (preserves_alloc h _) (preserves_alloc h1 _)). }
    rewrite H2l, H2r. unfold submit_st, submit.
    destruct (picklable key);
      [|cbn [future_result]; split; [exact Hp2|reflexivity]].
    pose proof (IH _ Hm _ eq_refl 0 [firstn mid (deref h array)]) as IHl.
    pose proof (IH _ Hm _ eq_refl 0 [skipn mid (deref h array)]) as IHr.
    change (deref [firstn mid (deref h array)] 0)
      with (firstn mid (deref h array)) in IHl.
    change (deref [skipn mid (deref h array)] 0)
      with (skipn mid (deref h array)) in IHr.
    destruct (parallel_merge_sort_st key 0 (max_depth - 1)
                [firstn mid (deref h array)]) as [hl outl|hl e|];
      cbn [future_result]; unfold alloc.
    + destruct IHl as (_ & _ & Heql); [simpl; lia|]. rewrite Heql.
      set (h3 := h2 ++ [deref hl outl]).
      assert (Hlen3 : length h3 = S (length h2)) by apply length_alloc.
      destruct (parallel_merge_sort_st key 0 (max_depth - 1)
                  [skipn mid (deref h array)]) as [hr outr|hr e|];
        cbn [future_result]; unfold alloc.
      * destruct IHr as (_ & _ & Heqr); [simpl; lia|]. rewrite Heqr.
        set (h4 := h3 ++ [deref hr outr]).
        assert (Hlen4 : length h4 = S (length h3)) by apply length_alloc.
        assert (H4l : deref h4 (length h2) = deref hl outl).
        { unfold h4. rewrite deref_alloc_old by lia. apply deref_alloc_new. }
        assert (H4r : deref h4 (length h3) = deref hr outr)
          by apply deref_alloc_new.
        assert (Hp4 : preserves h h4).
        { exact (preserves_trans Hp2
                   (preserves_trans (preserves_alloc h2 _) (preserves_alloc h3 _))). }
        pose proof (merge_st_spec key (length h2) (length h3) h4) as Hmerge.
        rewrite H4l, H4r in Hmerge.
        destruct (merge_st key (length h2) (length h3) h4) as [h5 out|h5 e|].
        -- destruct Hmerge as (Hp5 & Hout & Heq); try lia.
           split; [exact (preserves_trans Hp4 Hp5)|split; [lia|exact Heq]].
        -- destruct Hmerge as (Hp5 & Heq); try lia.
           split; [exact (preserves_trans Hp4 Hp5)|exact Heq].
        -- apply Hmerge; lia.
      * destruct IHr as (_ & Heqr); [simpl; lia|]. rewrite Heqr.
        split; [|reflexivity].
        exact (preserves_trans Hp2 (preserves_alloc h2 _)).
      * apply IHr. simpl. lia.
    + destruct IHl as (_ & Heql); [simpl; lia|]. rewrite Heql.
      split; [exact Hp2|reflexivity].
    + apply IHl. simpl. lia.
Qed.

End StoreWorkersFacts.

(** C9. Neither [merge] nor [parallel_merge_sort] mutates its input.
    Run over a store of list objects in which the arguments are alive,
    each call leaves every object that existed with the contents it had
    (the argument lists in particular), returns a list object that did
    not exist before the call, whose contents are the result of the
    function on the contents of the arguments, and leaves the objects
    unchanged when it raises; and the two halves [array[:mid]] and
    [array[mid:]] concatenate to the input. *)
Theorem no_input_mutation {A K : Type} `{PyOrd K} (key : pyfun A K) :
  (forall (l r : ref) (h : store A),
     l < length h -> r < length h ->
     match merge_st key l r h with
     | Returns h' out =>
         deref h' l = deref h l /\ deref h' r = deref h r /\
         preserves h h' /\
         length h <= out < length h' /\
         merge key (deref h l) (deref h r) = Ok (deref h' out)
     | Raises h' e =>
         preserves h h' /\ merge key (deref h l) (deref h r) = Raise e
     | OutOfFuel => False
     end) /\
  (forall (array : ref) (max_depth : Z) (h : store A),
     array < length h ->
     match parallel_merge_sort_st key array max_depth h with
     | Returns h' out =>
         deref h' array = deref h array /\
         preserves h h' /\
         length h <= out < length h' /\
         parallel_merge_sort key (deref h array) max_depth = Ok (deref h' out)
     | Raises h' e =>
         preserves h h' /\
         parallel_merge_sort key (deref h array) max_depth = Raise e
     | OutOfFuel => False
     end) /\
  (forall array : list A,
     firstn (length array / 2) array ++ skipn (length array / 2) array = array).
Proof.
  split; [|split].
  - intros l r h Hl Hr. pose proof (merge_st_spec key l r h Hl Hr) as Hs.
    destruct (merge_st key l r h) as [h' out|h' e|]; [|exact Hs|exact Hs].
    destruct Hs as (Hp & Hout & Heq).
    repeat split; try apply Hp; try lia; try exact Heq; apply Hp; assumption.
  - intros array max_depth h Ha.
    pose proof (parallel_merge_sort_st_spec key max_depth array h Ha) as Hs.
    destruct (parallel_merge_sort_st key array max_depth h) as [h' out|h' e|];
      [|exact Hs|exact Hs].
    destruct Hs as (Hp & Hout & Heq).
    repeat split; try apply Hp; try lia; try exact Heq; apply Hp; assumption.
  - intros array. apply firstn_skipn.
Qed.

Lemma no_input_mutation_witness :
  match merge_st identity_key 0 1 [[1; 3; 5]; [2; 2; 4]]%Z with
  | Returns h' out =>
      deref h' 0 = [1; 3; 5]%Z /\ deref h' 1 = [2; 2; 4]%Z /\
      preserves [[1; 3; 5]; [2; 2; 4]]%Z h' /\
      2 <= out < length h' /\
      merge identity_key [1; 3; 5]%Z [2; 2; 4]%Z = Ok (deref h' out)
  | Raises h' e =>
      preserves [[1; 3; 5]; [2; 2; 4]]%Z h' /\
      merge identity_key [1; 3; 5]%Z [2; 2; 4]%Z = Raise e
  | OutOfFuel => False
  end /\
  match parallel_merge_sort_st identity_key 0 1 [[3; 1; 2]]%Z with
  | Returns h' out =>
      deref h' 0 = [3; 1; 2]%Z /\
      preserves [[3; 1; 2]]%Z h' /\
      1 <= out < length h' /\
      parallel_merge_sort identity_key [3; 1; 2]%Z 1 = Ok (deref h' out)
  | Raises h' e =>
      preserves [[3; 1; 2]]%Z h' /\
      parallel_merge_sort identity_key [3; 1; 2]%Z 1 = Raise e
  | OutOfFuel => False
  end.
Proof.
  split.
  - apply (proj1 (no_input_mutation identity_key) 0 1 [[1; 3; 5]; [2; 2; 4]]%Z);
      simpl; lia.
  - apply (proj1 (proj2 (no_input_mutation identity_key)) 0 1%Z [[3; 1; 2]]%Z).
    simpl. lia.
Defined.

(** ** Decks of well-formed cards *)

Lemma agree_on_well_formed (deck : list Card.t) :
  (forall c, In c deck -> well_formed c) ->
  agree_on card_sort_key int_key deck.
Proof.
  intros Hwf x y Hx Hy.
  destruct (Hwf x Hx) as (sx & rx & Hkx). destruct (Hwf y Hy) as (sy & ry & Hky).
  exists (sx, PInt rx), (sy, PInt ry). unfold int_key.
  cbn [call card_sort_key Def].
  rewrite Hkx, Hky. split; [reflexivity|split; [reflexivity|]].
  cbn -[Z.eqb Z.leb Z.ltb].
  destruct (Z.eqb_spec sx sy) as [->|Hs]; cbn [negb].
  - rewrite Z.eqb_refl. cbn [negb].
    destruct (Z.eqb_spec rx ry) as [->|Hr]; cbn [negb].
    + rewrite Z.leb_refl. now split.
    + split; [reflexivity|]. f_equal. apply Z.ltb_antisym.
  - destruct (Z.eqb_spec sy sx) as [->|_]; [contradiction|]. cbn [negb].
    split; [reflexivity|]. f_equal. apply Z.ltb_antisym.
Qed.

(** A deck of well-formed cards is sorted by (suit order, rank order),
    stably, at every depth, as [sorted] sorts it. *)
Theorem well_formed_deck_sorted (deck : list Card.t) (max_depth : Z) :
  (forall c, In c deck -> well_formed c) ->
  exists out : list Card.t,
    parallel_merge_sort card_sort_key deck max_depth = Ok out /\
    sorted card_sort_key deck = Ok out /\
    Permutation deck out /\
    ascending int_key out /\
    stable_wrt int_key deck out.
Proof.
  intros Hwf. pose proof (agree_on_well_formed deck Hwf) as Ha.
  exists (stable_sort int_key deck). split; [|split; [|split; [|split]]].
  - now apply parallel_merge_sort_agree.
  - now apply sorted_agree.
  - apply stable_sort_perm.
  - apply StronglySorted_ascending, stable_sort_sorted.
  - apply stable_sort_stable.
Qed.

Lemma well_formed_deck_sorted_witness :
  exists out : list Card.t,
    parallel_merge_sort card_sort_key
      [Card.mk comodin (PInt 2); Card.mk (PStr "picas") (PStr "Q");
       Card.mk (PStr "corazones") (PStr "A")] 1 = Ok out /\
    sorted card_sort_key
      [Card.mk comodin (PInt 2); Card.mk (PStr "picas") (PStr "Q");
       Card.mk (PStr "corazones") (PStr "A")] = Ok out /\
    Permutation
      [Card.mk comodin (PInt 2); Card.mk (PStr "picas") (PStr "Q");
       Card.mk (PStr "corazones") (PStr "A")] out /\
    ascending int_key out /\
    stable_wrt int_key
      [Card.mk comodin (PInt 2); Card.mk (PStr "picas") (PStr "Q");
       Card.mk (PStr "corazones") (PStr "A")] out.
Proof.
  apply well_formed_deck_sorted.
  intros c [<-|[<-|[<-|[]]]].
  - exists 4%Z, 2%Z. reflexivity.
  - exists 2%Z, 12%Z. reflexivity.
  - exists 0%Z, 1%Z. reflexivity.
Defined.

(** [merge] is stable: when the left list is in ascending key order,
    the elements of each key come out with those of the left list
    first, each list's in their order. *)
Theorem merge_stable {A K : Type} `{TotalOrd K}
    (key : A -> K) (left right : list A) (k : K) :
  ascending key left ->
  exists out : list A,
    merge (total key) left right = Ok out /\
    filter (same_key key k) out =
    filter (same_key key k) left ++ filter (same_key key k) right.
Proof.
  intros Hl. exists (merge_lists key left right). split.
  - apply merge_total.
  - apply merge_lists_stable. now apply StronglySorted_ascending.
Qed.

Lemma merge_stable_witness :
  exists out : list (Z * bool),
    merge (total fst) [(1%Z, true); (2%Z, true)] [(1%Z, false); (2%Z, false)] = Ok out /\
    filter (same_key fst 2%Z) out =
    filter (same_key fst 2%Z) [(1%Z, true); (2%Z, true)] ++
    filter (same_key fst 2%Z) [(1%Z, false); (2%Z, false)].
Proof.
  apply (merge_stable fst [(1%Z, true); (2%Z, true)]).
  intros i x y Hx Hy. unfold kle.
  destruct i as [|[|i]]; simpl in Hx, Hy; inversion Hx; inversion Hy; subst;
    reflexivity.
Defined.

(** ** Examples *)

Example merge_example :
  merge identity_key [1; 3; 5]%Z [2; 2; 4]%Z = Ok [1; 2; 2; 3; 4; 5]%Z.
Proof. reflexivity. Qed.

Example merge_ties_example :
  merge (total fst) [(1%Z, true)] [(1%Z, false)] = Ok [(1%Z, true); (1%Z, false)].
Proof. reflexivity. Qed.

(** With a key function defined at module level. *)
Example parallel_merge_sort_example :
  parallel_merge_sort (Def (fun z : Z => Ok z)) [5; 3; 9; 1; 2; 2; 4]%Z 2 =
  Ok [1; 2; 2; 3; 4; 5; 9]%Z.
Proof. reflexivity. Qed.

(** With the defaults, [parallel_merge_sort([5, 3, 9, 1, 2, 2, 4])]:
    the key is a lambda and the depth is 2. *)
Example parallel_merge_sort_defaults_example :
  parallel_merge_sort identity_key [5; 3; 9; 1; 2; 2; 4]%Z 2 = Raise PicklingError.
Proof. reflexivity. Qed.

(** The default key at depth 0: nothing is submitted. *)
Example parallel_merge_sort_sequential_example :
  parallel_merge_sort identity_key [5; 3; 9; 1; 2; 2; 4]%Z 0 =
  Ok [1; 2; 2; 3; 4; 5; 9]%Z.
Proof. reflexivity. Qed.

(** The end-to-end example of the specification: K, 2 and A of one
    suit sort to A, 2, K. *)
Example hearts_example :
  parallel_merge_sort card_sort_key
    [Card.mk (PStr "corazones") (PStr "K");
     Card.mk (PStr "corazones") (PStr "2");
     Card.mk (PStr "corazones") (PStr "A")] 3 =
  Ok [Card.mk (PStr "corazones") (PStr "A");
      Card.mk (PStr "corazones") (PStr "2");
      Card.mk (PStr "corazones") (PStr "K")].
Proof. reflexivity. Qed.

Example deck_example :
  parallel_merge_sort card_sort_key
    [Card.mk (PStr "corazones") (PStr "K"); Card.mk (PStr "corazones") (PStr "2");
     Card.mk comodin (PInt 2); Card.mk (PStr "tréboles") (PStr "A");
     Card.mk (PStr "corazones") (PStr "A"); Card.mk comodin (PInt 1)] 2 =
  Ok [Card.mk (PStr "corazones") (PStr "A"); Card.mk (PStr "corazones") (PStr "2");
      Card.mk (PStr "corazones") (PStr "K"); Card.mk (PStr "tréboles") (PStr "A");
      Card.mk comodin (PInt 1); Card.mk comodin (PInt 2)].
Proof. reflexivity. Qed.

(** A joker with a str rank next to one with an int rank: the keys
    exist, their comparison raises. *)
Example mixed_jokers_example :
  parallel_merge_sort card_sort_key
    [Card.mk comodin (PStr "x"); Card.mk comodin (PInt 1)] 1 = Raise TypeError.
Proof. reflexivity. Qed.

Example merge_st_example :
  merge_st identity_key 0 1 [[1; 3; 5]; [2; 2; 4]]%Z =
  Returns [[1; 3; 5]; [2; 2; 4]; [1; 2; 2; 3; 4; 5]; [5]; []]%Z 2.
Proof. reflexivity. Qed.

(** The same list given as both arguments is read twice and left as it
    is. *)
Example merge_st_alias_example :
  merge_st identity_key 0 0 [[1; 2]]%Z =
  Returns [[1; 2]; [1; 1; 2; 2]; []; [2]]%Z 1.
Proof. reflexivity. Qed.

Example parallel_merge_sort_st_example :
  parallel_merge_sort_st (Def (fun z : Z => Ok z)) 0 1 [[3; 1; 2]]%Z =
  Returns [[3; 1; 2]; [3]; [1; 2]; [3]; [1; 2]; [1; 2; 3]; [3]; []]%Z 5.
Proof. reflexivity. Qed.

(** With the default key the two slices are made, and the call raises
    when it asks for the first result. *)
Example parallel_merge_sort_st_defaults_example :
  parallel_merge_sort_st identity_key 0 1 [[3; 1; 2]]%Z =
  Raises [[3; 1; 2]; [3]; [1; 2]]%Z PicklingError.
Proof. reflexivity. Qed.

Example get_optimal_max_depth_example :
  map get_optimal_max_depth [1; 2; 3; 4; 7; 8; 12; 16; 64]%Z =
  [0; 1; 1; 2; 2; 3; 3; 4; 6]%Z.
Proof. reflexivity. Qed.

(** ** The printed deck: a run-length encoding *)

Lemma pyval_eq (a b : pyval) : py_eq a b = true <-> a = b.
Proof.
  destruct a as [x|s], b as [y|t]; cbn -[Z.eqb String.eqb];
    try (split; [discriminate|intros E; inversion E]).
  - rewrite Z.eqb_eq. split; [now intros ->|intros E; now inversion E].
  - rewrite String.eqb_eq. split; [now intros ->|intros E; now inversion E].
Qed.

Lemma same_card_eq (a b : Card.t) : same_card a b = true <-> a = b.
Proof.
  unfold same_card. rewrite andb_true_iff, !pyval_eq.
  destruct a as [sa ra], b as [sb rb]. cbn [Card.suit Card.rank]. split.
  - intros [-> ->]. reflexivity.
  - intros E. inversion E. now split.
Qed.

Lemma same_card_neq (a b : Card.t) : same_card a b = false <-> a <> b.
Proof.
  split.
  - intros Hf E. apply same_card_eq in E. congruence.
  - intros Hn. destruct (same_card a b) eqn:E; [|reflexivity].
    apply same_card_eq in E. contradiction.
Qed.

(** The loop prints one line per run. *)
Lemma print_loop_runs (rest : list Card.t) :
  forall (prev : Card.t) (count : nat) (out : list string),
    print_loop rest prev count out =
    out ++ map run_text (runs_from prev count rest).
Proof.
  induction rest as [|card rest IH]; intros prev count out; cbn [print_loop runs_from].
  - reflexivity.
  - destruct (same_card card prev).
    + apply IH.
    + rewrite IH, <- app_assoc. reflexivity.
Qed.

Lemma repeat_snoc {X : Type} (x : X) (n : nat) : repeat x (n + 1) = repeat x n ++ [x].
Proof. rewrite repeat_app. reflexivity. Qed.

Lemma expand_runs_from (rest : list Card.t) :
  forall (prev : Card.t) (count : nat),
    expand (runs_from prev count rest) = repeat prev count ++ rest.
Proof.
  induction rest as [|card rest IH]; intros prev count; cbn [runs_from].
  - unfold expand. simpl. reflexivity.
  - destruct (same_card card prev) eqn:E.
    + apply same_card_eq in E. subst card.
      rewrite IH, repeat_snoc, <- app_assoc. reflexivity.
    + unfold expand in *. cbn [flat_map fst snd]. rewrite IH. reflexivity.
Qed.

Lemma runs_from_counts (rest : list Card.t) :
  forall (prev : Card.t) (count : nat),
    1 <= count -> Forall (fun g => 1 <= snd g) (runs_from prev count rest).
Proof.
  induction rest as [|card rest IH]; intros prev count Hc; cbn [runs_from].
  - now repeat constructor.
  - destruct (same_card card prev).
    + apply IH. lia.
    + constructor; [exact Hc|]. apply IH. lia.
Qed.

Lemma runs_from_head (rest : list Card.t) (prev : Card.t) (count : nat) :
  exists (n : nat) (tl : list (Card.t * nat)),
    runs_from prev count rest = (prev, n) :: tl.
Proof.
  revert count. induction rest as [|card rest IH]; intros count; cbn [runs_from].
  - now exists count, [].
  - destruct (same_card card prev); [apply IH|].
    now exists count, (runs_from card 1 rest).
Qed.

Lemma Sorted_neighbours (groups : list (Card.t * nat)) :
  Sorted (fun g1 g2 => fst g1 <> fst g2) groups -> neighbours_differ groups.
Proof.
  intros Hs. induction Hs as [|g groups Hs IH Hd]; intros i g1 g2 H1 H2.
  - destruct i; discriminate.
  - destruct i as [|i]; cbn [nth_error] in H1, H2.
    + inversion H1; subst. destruct Hd as [|g' groups Hg]; [discriminate|].
      cbn in H2. inversion H2; subst. exact Hg.
    + exact (IH i g1 g2 H1 H2).
Qed.

Lemma runs_from_neighbours (rest : list Card.t) :
  forall (prev : Card.t) (count : nat),
    Sorted (fun g1 g2 => fst g1 <> fst g2) (runs_from prev count rest).
Proof.
  induction rest as [|card rest IH]; intros prev count; cbn [runs_from].
  - repeat constructor.
  - destruct (same_card card prev) eqn:E; [apply IH|].
    constructor; [apply IH|].
    destruct (runs_from_head rest card 1) as (n & tl & ->).
    constructor. cbn [fst]. apply same_card_neq in E. congruence.
Qed.

(** The display is a lossless run-length encoding of the deck: after
    the header it prints one line per maximal run of equal cards, each
    with [(xN)] when the run has more than one card; the runs have
    lengths at least 1, no two neighbouring runs are of the same card,
    and expanded they give the deck back.  For an empty deck it prints
    the header and the notice that there are no cards. *)
Theorem print_deck_run_length (title : string) :
  print_deck_with_duplicates [] title =
  [header title; "No hay cartas para mostrar."%string] /\
  (forall sorted_deck : list Card.t,
     sorted_deck <> [] ->
     exists groups : list (Card.t * nat),
       print_deck_with_duplicates sorted_deck title =
       header title :: map run_text groups /\
       expand groups = sorted_deck /\
       Forall (fun g => 1 <= snd g) groups /\
       neighbours_differ groups).
Proof.
  split; [reflexivity|].
  intros [|prev rest] Hne; [contradiction|].
  exists (runs_from prev 1 rest). split; [|split; [|split]].
  - unfold print_deck_with_duplicates. rewrite print_loop_runs. reflexivity.
  - rewrite expand_runs_from. reflexivity.
  - apply runs_from_counts. lia.
  - apply Sorted_neighbours, runs_from_neighbours.
Qed.

Lemma print_deck_run_length_witness :
  exists groups : list (Card.t * nat),
    print_deck_with_duplicates
      [Card.mk comodin (PInt 1); Card.mk comodin (PInt 1);
       Card.mk comodin (PInt 2)] default_title =
    header default_title :: map run_text groups /\
    expand groups =
      [Card.mk comodin (PInt 1); Card.mk comodin (PInt 1);
       Card.mk comodin (PInt 2)] /\
    Forall (fun g => 1 <= snd g) groups /\
    neighbours_differ groups.
Proof.
  apply (proj2 (print_deck_run_length default_title)). discriminate.
Defined.

(** ** Keys of well-formed cards *)

Lemma dict_get_In (d : list (pyval * Z)) (k : pyval) (v : Z) :
  dict_get d k = Ok v -> In (k, v) d.
Proof.
  unfold dict_get. induction d as [|entry d IH]; cbn [find]; [discriminate|].
  destruct (py_eq (fst entry) k) eqn:E.
  - intros Hv. inversion Hv; subst v. apply pyval_eq in E. subst k.
    left. now destruct entry.
  - intros Hv. right. now apply IH.
Qed.

Lemma values_distinct (d : list (pyval * Z)) (a b : pyval) (v : Z) :
  NoDup (map snd d) -> In (a, v) d -> In (b, v) d -> a = b.
Proof.
  induction d as [|entry d IH]; intros Hnd Ha Hb; [contradiction|].
  cbn [map] in Hnd. inversion Hnd as [|? ? Hnotin Hnd']; subst.
  destruct Ha as [Ha|Ha], Hb as [Hb|Hb].
  - congruence.
  - exfalso. apply Hnotin. subst entry. cbn [snd].
    change v with (snd (b, v)). now apply in_map.
  - exfalso. apply Hnotin. subst entry. cbn [snd].
    change v with (snd (a, v)). now apply in_map.
  - now apply IH.
Qed.

Lemma dict_get_injective (d : list (pyval * Z)) (a b : pyval) (v : Z) :
  NoDup (map snd d) -> dict_get d a = Ok v -> dict_get d b = Ok v -> a = b.
Proof.
  intros Hnd Ha Hb. apply (values_distinct d a b v Hnd); now apply dict_get_In.
Qed.

Lemma suits_order_values : NoDup (map snd suits_order).
Proof.
  cbn. repeat (constructor; [cbn; intuition discriminate|]). constructor.
Qed.

Lemma ranks_order_values : NoDup (map snd ranks_order).
Proof.
  cbn. repeat (constructor; [cbn; intuition discriminate|]). constructor.
Qed.

(** What a well-formed card is: a joker with an int rank, keyed
    [(4, rank)], or a card of one of the four suits with a rank of the
    table, keyed below 4. *)
Lemma well_formed_cases (c : Card.t) (s r : Z) :
  Card.key c = Ok (s, PInt r) ->
  (Card.suit c = comodin /\ Card.rank c = PInt r /\ s = 4%Z) \/
  (py_eq (Card.suit c) comodin = false /\
   dict_get suits_order (Card.suit c) = Ok s /\
   dict_get ranks_order (Card.rank c) = Ok r /\ (0 <= s < 4)%Z).
Proof.
  unfold Card.key. fold comodin.
  destruct (py_eq (Card.suit c) comodin) eqn:Hj.
  - apply pyval_eq in Hj. rewrite Hj. cbn. intros Hk. inversion Hk. now left.
  - destruct (dict_get suits_order (Card.suit c)) as [n|] eqn:Hs; [|discriminate].
    destruct (dict_get ranks_order (Card.rank c)) as [m|] eqn:Hr; [|discriminate].
    intros Hk. inversion Hk; subst n m. right.
    repeat split; try reflexivity; now apply (ordinary_suit_order _ _ Hs).
Qed.

Lemma int_key_injective (c1 c2 : Card.t) :
  well_formed c1 -> well_formed c2 -> int_key c1 = int_key c2 -> c1 = c2.
Proof.
  intros (s1 & r1 & H1) (s2 & r2 & H2) Heq.
  unfold int_key in Heq. rewrite H1, H2 in Heq.
  inversion Heq; subst s2 r2. clear Heq.
  destruct c1 as [u1 v1], c2 as [u2 v2].
  destruct (well_formed_cases _ _ _ H1) as [(Hu1 & Hv1 & Hs1)|(Hj1 & Hu1 & Hv1 & Hs1)];
    destruct (well_formed_cases _ _ _ H2) as [(Hu2 & Hv2 & Hs2)|(Hj2 & Hu2 & Hv2 & Hs2)];
    cbn [Card.suit Card.rank] in *; try lia.
  - congruence.
  - f_equal.
    + exact (dict_get_injective _ _ _ _ suits_order_values Hu1 Hu2).
    + exact (dict_get_injective _ _ _ _ ranks_order_values Hv1 Hv2).
Qed.

(** No two different well-formed cards have the same key: the order of
    a deck of well-formed cards leaves no ties but between equal
    cards. *)
Theorem card_key_injective (c1 c2 : Card.t) :
  well_formed c1 -> well_formed c2 -> Card.key c1 = Card.key c2 -> c1 = c2.
Proof.
  intros W1 W2 Heq. apply int_key_injective; [exact W1|exact W2|].
  unfold int_key. now rewrite Heq.
Qed.

Lemma card_key_injective_witness :
  Card.mk (PStr "picas") (PStr "Q") = Card.mk (PStr "picas") (PStr "Q").
Proof.
  apply card_key_injective.
  - exists 2%Z, 12%Z. reflexivity.
  - exists 2%Z, 12%Z. reflexivity.
  - reflexivity.
Defined.


Lemma int_key_antisym (c1 c2 : Card.t) :
  well_formed c1 -> well_formed c2 ->
  kle int_key c1 c2 -> kle int_key c2 c1 -> c1 = c2.
Proof.
  intros W1 W2 H12 H21. apply int_key_injective; [exact W1|exact W2|].
  unfold kle in *.
  assert (E : py_eq (int_key c1) (int_key c2) = true)
    by now rewrite py_eq_leb, H12, H21.
  destruct (int_key c1) as [a1 b1], (int_key c2) as [a2 b2].
  cbn -[Z.eqb] in E. apply andb_true_iff in E. destruct E as [Ea Eb].
  apply Z.eqb_eq in Ea, Eb. congruence.
Qed.

(** ** Sorting and printing a deck of well-formed cards *)

(** Two lists in ascending order with the same elements are equal when
    no two different elements tie. *)
Lemma sorted_perm_eq {A K : Type} `{TotalOrd K} (key : A -> K) (l1 : list A) :
  forall l2 : list A,
    Permutation l1 l2 ->
    StronglySorted (kle key) l1 -> StronglySorted (kle key) l2 ->
    (forall x y, In x l1 -> In y l1 -> kle key x y -> kle key y x -> x = y) ->
    l1 = l2.
Proof.
  induction l1 as [|x t1 IH]; intros l2 Hp H1 H2 Hanti.
  - apply Permutation_nil in Hp. now subst.
  - destruct l2 as [|y t2].
    { apply Permutation_sym, Permutation_nil in Hp. discriminate. }
    inversion H1 as [|? ? Ht1 Hx]; inversion H2 as [|? ? Ht2 Hy]; subst.
    assert (Hxy : x = y).
    { assert (Hyin : In y (x :: t1)).
      { apply (Permutation_in y (Permutation_sym Hp)). now left. }
      assert (Hxin : In x (y :: t2)).
      { apply (Permutation_in x Hp). now left. }
      destruct Hyin as [E|Hyin]; [exact E|].
      destruct Hxin as [E|Hxin]; [now symmetry|].
      apply Hanti; [now left|now right| |].
      - exact (proj1 (Forall_forall _ _) Hx _ Hyin).
      - exact (proj1 (Forall_forall _ _) Hy _ Hxin). }
    subst y. f_equal. apply IH; try assumption.
    + exact (Permutation_cons_inv Hp).
    + intros a b Ha Hb. apply Hanti; now right.
Qed.

Lemma well_formed_antisym (deck : list Card.t) :
  (forall c, In c deck -> well_formed c) ->
  forall x y, In x deck -> In y deck ->
    kle int_key x y -> kle int_key y x -> x = y.
Proof.
  intros Hwf x y Hx Hy. apply int_key_antisym; now apply Hwf.
Qed.

(** The order of the input does not matter: two decks of well-formed
    cards with the same cards are sorted to the same list, at any two
    depths. *)
Theorem sort_ignores_order (deck1 deck2 : list Card.t) (d1 d2 : Z) :
  (forall c, In c deck1 -> well_formed c) ->
  Permutation deck1 deck2 ->
  exists out : list Card.t,
    parallel_merge_sort card_sort_key deck1 d1 = Ok out /\
    parallel_merge_sort card_sort_key deck2 d2 = Ok out.
Proof.
  intros Hwf Hp.
  assert (Hwf2 : forall c, In c deck2 -> well_formed c).
  { intros c Hc. apply Hwf. exact (Permutation_in c (Permutation_sym Hp) Hc). }
  exists (stable_sort int_key deck1). split.
  - now apply parallel_merge_sort_agree, agree_on_well_formed.
  - rewrite (parallel_merge_sort_agree card_sort_key int_key)
      by now apply agree_on_well_formed.
    f_equal. symmetry. apply (sorted_perm_eq int_key).
    + rewrite <- (stable_sort_perm int_key deck1), <- (stable_sort_perm int_key deck2).
      exact Hp.
    + apply stable_sort_sorted.
    + apply stable_sort_sorted.
    + apply well_formed_antisym. intros c Hc. apply Hwf.
      exact (Permutation_in c (Permutation_sym (stable_sort_perm int_key deck1)) Hc).
Qed.

Lemma sort_ignores_order_witness :
  exists out : list Card.t,
    parallel_merge_sort card_sort_key
      [Card.mk comodin (PInt 2); Card.mk (PStr "picas") (PStr "Q");
       Card.mk comodin (PInt 2)] 0 = Ok out /\
    parallel_merge_sort card_sort_key
      [Card.mk comodin (PInt 2); Card.mk comodin (PInt 2);
       Card.mk (PStr "picas") (PStr "Q")] 2 = Ok out.
Proof.
  apply sort_ignores_order.
  - intros c [<-|[<-|[<-|[]]]].
    + exists 4%Z, 2%Z. reflexivity.
    + exists 2%Z, 12%Z. reflexivity.
    + exists 4%Z, 2%Z. reflexivity.
  - apply perm_skip, perm_swap.
Defined.

Lemma runs_from_members (rest : list Card.t) :
  forall (prev : Card.t) (count : nat),
    Forall (fun g => In (fst g) (prev :: rest)) (runs_from prev count rest).
Proof.
  induction rest as [|card rest IH]; intros prev count; cbn [runs_from].
  - constructor; [now left|constructor].
  - destruct (same_card card prev).
    + eapply Forall_impl; [|apply IH]. intros g [Hg|Hg]; [now left|right; now right].
    + constructor; [now left|].
      eapply Forall_impl; [|apply IH]. intros g Hg. now right.
Qed.

(** In a list in ascending order, every card has one run. *)
Lemma runs_from_nodup (rest : list Card.t) :
  forall (prev : Card.t) (count : nat),
    StronglySorted (kle int_key) (prev :: rest) ->
    Forall well_formed (prev :: rest) ->
    NoDup (map fst (runs_from prev count rest)).
Proof.
  induction rest as [|card rest IH]; intros prev count Hs Hwf; cbn [runs_from].
  - cbn. constructor; [intros []|constructor].
  - inversion Hs as [|? ? Hs' Hprev]; subst.
    inversion Hwf as [|? ? Wprev Wrest]; subst.
    destruct (same_card card prev) eqn:E.
    + apply same_card_eq in E. subst card. apply IH.
      * inversion Hs' as [|? ? Hs'' Hp']; subst. now constructor.
      * inversion Wrest; subst. now constructor.
    + apply same_card_neq in E. cbn [map fst]. constructor; [|now apply IH].
      intros Hin. apply in_map_iff in Hin. destruct Hin as (g & Hg & Hgin).
      pose proof (proj1 (Forall_forall _ _) (runs_from_members rest card 1) g Hgin)
        as Hmem.
      cbv beta in Hmem. rewrite Hg in Hmem.
      inversion Hprev as [|? ? Hpc _]; subst.
      inversion Wrest as [|? ? Wcard _]; subst.
      destruct Hmem as [Hc|Hr]; [congruence|].
      inversion Hs' as [|? ? _ Hcard]; subst.
      pose proof (proj1 (Forall_forall _ _) Hcard _ Hr) as Hcp.
      apply E. now apply int_key_antisym.
Qed.

(** Sorting then printing: for a deck of well-formed cards, at every
    depth, the sorted deck is displayed with every distinct card on
    exactly one line, and the runs displayed hold the cards of the
    deck, each as often as the deck has it. *)
Theorem sorted_deck_display (deck : list Card.t) (max_depth : Z) (title : string) :
  deck <> [] ->
  (forall c, In c deck -> well_formed c) ->
  exists (out : list Card.t) (groups : list (Card.t * nat)),
    parallel_merge_sort card_sort_key deck max_depth = Ok out /\
    print_deck_with_duplicates out title = header title :: map run_text groups /\
    NoDup (map fst groups) /\
    Forall (fun g => 1 <= snd g) groups /\
    Permutation deck (expand groups).
Proof.
  intros Hne Hwf.
  pose proof (stable_sort_perm int_key deck) as Hp.
  pose proof (stable_sort_sorted int_key deck) as Hs.
  destruct (stable_sort int_key deck) as [|prev rest] eqn:Hout.
  { apply Permutation_sym, Permutation_nil in Hp. contradiction. }
  exists (prev :: rest), (runs_from prev 1 rest). split; [|split; [|split; [|split]]].
  - rewrite <- Hout. now apply parallel_merge_sort_agree, agree_on_well_formed.
  - unfold print_deck_with_duplicates. rewrite print_loop_runs. reflexivity.
  - apply runs_from_nodup; [exact Hs|].
    apply Forall_forall. intros c Hc. apply Hwf.
    exact (Permutation_in c (Permutation_sym Hp) Hc).
  - apply runs_from_counts. lia.
  - rewrite expand_runs_from. exact Hp.
Qed.

Lemma sorted_deck_display_witness :
  exists (out : list Card.t) (groups : list (Card.t * nat)),
    parallel_merge_sort card_sort_key
      [Card.mk comodin (PInt 2); Card.mk (PStr "picas") (PStr "Q");
       Card.mk comodin (PInt 2)] 1 = Ok out /\
    print_deck_with_duplicates out default_title =
      header default_title :: map run_text groups /\
    NoDup (map fst groups) /\
    Forall (fun g => 1 <= snd g) groups /\
    Permutation
      [Card.mk comodin (PInt 2); Card.mk (PStr "picas") (PStr "Q");
       Card.mk comodin (PInt 2)] (expand groups).
Proof.
  apply sorted_deck_display.
  - discriminate.
  - intros c [<-|[<-|[<-|[]]]].
    + exists 4%Z, 2%Z. reflexivity.
    + exists 2%Z, 12%Z. reflexivity.
    + exists 4%Z, 2%Z. reflexivity.
Defined.

(** ** The deck that [createDeck] builds *)

Lemma copies_flat_map (n : nat) (cards : list Card.t) :
  copies n cards = flat_map (fun c => repeat c n) cards.
Proof.
  unfold copies, expand. induction cards as [|c cards IH]; [reflexivity|].
  cbn [map flat_map fst snd]. now rewrite IH.
Qed.

Lemma copies_cons (n : nat) (c : Card.t) (cards : list Card.t) :
  copies n (c :: cards) = repeat c n ++ copies n cards.
Proof. now rewrite !copies_flat_map. Qed.

Lemma copies_In (n : nat) (cards : list Card.t) (x : Card.t) :
  In x (copies n cards) -> In x cards.
Proof.
  rewrite copies_flat_map. intros Hin. apply in_flat_map in Hin.
  destruct Hin as (c & Hc & Hx). apply repeat_spec in Hx. now subst.
Qed.

Lemma copies_length (n : nat) (cards : list Card.t) :
  length (copies n cards) = n * length cards.
Proof.
  induction cards as [|c cards IH]; [cbn; lia|].
  rewrite copies_cons, length_app, repeat_length, IH. cbn [length]. lia.
Qed.

Lemma copies_perm (n : nat) (l1 l2 : list Card.t) :
  Permutation l1 l2 -> Permutation (copies n l1) (copies n l2).
Proof.
  intros Hp. rewrite !copies_flat_map. now apply Permutation_flat_map.
Qed.

Lemma copies_app (n : nat) (l1 l2 : list Card.t) :
  copies n (l1 ++ l2) = copies n l1 ++ copies n l2.
Proof. rewrite !copies_flat_map. apply flat_map_app. Qed.

Lemma copies_succ (n : nat) (cards : list Card.t) :
  Permutation (cards ++ copies n cards) (copies (S n) cards).
Proof.
  induction cards as [|c cards IH]; [reflexivity|].
  rewrite !copies_cons. cbn [repeat app]. constructor.
  rewrite <- IH.
  rewrite (Permutation_app_comm (repeat c n) (copies n cards)).
  rewrite app_assoc, (Permutation_app_comm _ (repeat c n)).
  reflexivity.
Qed.

(** [l * n] has [n] copies of each element of [l]. *)
Lemma list_mul_copies (cards : list Card.t) (n : Z) :
  Permutation (list_mul cards n) (copies (Z.to_nat n) cards).
Proof.
  unfold list_mul. induction (Z.to_nat n) as [|k IH]; cbn [repeat concat].
  - rewrite copies_flat_map. clear. induction cards; [reflexivity|assumption].
  - rewrite IH. apply copies_succ.
Qed.

Lemma pack_perm :
  Permutation
    (flat_map (fun rank => map (fun suit => Card.mk suit rank)
                             (Deck.suits (Deck.init (fun l => l) 0)))
              (Deck.ranks (Deck.init (fun l => l) 0))
     ++ [Card.mk (PStr "comodin") (PInt 1); Card.mk (PStr "comodin") (PInt 2)])
    pack.
Proof.
  assert (E : pack =
              stable_sort int_key
                (flat_map (fun rank => map (fun suit => Card.mk suit rank)
                                         (Deck.suits (Deck.init (fun l => l) 0)))
                          (Deck.ranks (Deck.init (fun l => l) 0))
                 ++ [Card.mk (PStr "comodin") (PInt 1);
                     Card.mk (PStr "comodin") (PInt 2)]))
    by (vm_compute; reflexivity).
  rewrite E. apply stable_sort_perm.
Qed.

Lemma pack_well_formed : Forall well_formed pack.
Proof.
  unfold pack. cbn [flat_map map app].
  repeat (constructor; [eexists; eexists; reflexivity|]). constructor.
Qed.

Lemma pack_sorted : StronglySorted (kle int_key) pack.
Proof.
  apply Sorted_StronglySorted.
  - intros x y z. apply kle_trans.
  - unfold pack. cbn [flat_map map app].
    repeat (constructor; [|constructor; reflexivity]).
    repeat constructor.
Qed.

Lemma pack_neighbours : Sorted (fun a b : Card.t => a <> b) pack.
Proof.
  unfold pack. cbn [flat_map map app].
  repeat (constructor; [|constructor; discriminate]).
  repeat constructor.
Qed.

Lemma pack_length : length pack = 54.
Proof. reflexivity. Qed.

Lemma filter_perm {X : Type} (f : X -> bool) (l1 l2 : list X) :
  Permutation l1 l2 -> Permutation (filter f l1) (filter f l2).
Proof.
  induction 1 as [|x l1 l2 _ IH|x y l|l1 l2 l3 _ IH1 _ IH2]; cbn [filter].
  - constructor.
  - destruct (f x); [now constructor|exact IH].
  - destruct (f x), (f y); try reflexivity. apply perm_swap.
  - now transitivity (filter f l2).
Qed.

Lemma filter_repeat {X : Type} (f : X -> bool) (x : X) (n : nat) :
  filter f (repeat x n) = if f x then repeat x n else [].
Proof.
  induction n as [|n IH]; cbn [repeat filter]; [now destruct (f x)|].
  rewrite IH. now destruct (f x).
Qed.

Lemma filter_copies (f : Card.t -> bool) (n : nat) (cards : list Card.t) :
  filter f (copies n cards) = copies n (filter f cards).
Proof.
  induction cards as [|c cards IH]; [reflexivity|].
  rewrite copies_cons, filter_app, filter_repeat, IH. cbn [filter].
  destruct (f c); [now rewrite copies_cons|reflexivity].
Qed.

Lemma createDeck_perm (shuffle : list Card.t -> list Card.t) (numDecks : Z) :
  permutes shuffle ->
  Permutation (Deck.deck (Deck.init shuffle numDecks))
              (copies (Z.to_nat numDecks) pack).
Proof.
  intros Hsh. unfold Deck.init, Deck.createDeck. cbn [Deck.deck]. cbv zeta.
  rewrite <- (Hsh _), !list_mul_copies, <- copies_app.
  apply copies_perm, pack_perm.
Qed.

Lemma createDeck_length (shuffle : list Card.t -> list Card.t) (numDecks : Z) :
  permutes shuffle ->
  length (Deck.deck (Deck.init shuffle numDecks)) = 54 * Z.to_nat numDecks.
Proof.
  intros Hsh.
  rewrite (Permutation_length (createDeck_perm shuffle numDecks Hsh)).
  rewrite copies_length, pack_length. lia.
Qed.

Lemma createDeck_well_formed (shuffle : list Card.t -> list Card.t) (numDecks : Z) :
  permutes shuffle ->
  forall c, In c (Deck.deck (Deck.init shuffle numDecks)) -> well_formed c.
Proof.
  intros Hsh c Hc. apply (proj1 (Forall_forall _ _) pack_well_formed).
  apply (copies_In (Z.to_nat numDecks)).
  exact (Permutation_in c (createDeck_perm shuffle numDecks Hsh) Hc).
Qed.

(** [createDeck] builds a deck with [numDecks] copies of each of the 54
    cards of a pack, the two jokers among them (so [2 * numDecks]
    jokers), in the order the shuffle left; every card of it is
    well-formed, and it has [54 * numDecks] cards, none when
    [numDecks <= 0]. *)
Theorem createDeck_contents (shuffle : list Card.t -> list Card.t) (numDecks : Z) :
  permutes shuffle ->
  Permutation (Deck.deck (Deck.init shuffle numDecks))
              (copies (Z.to_nat numDecks) pack) /\
  length (Deck.deck (Deck.init shuffle numDecks)) = 54 * Z.to_nat numDecks /\
  length (filter (fun c => py_eq (Card.suit c) (PStr "comodin"))
                 (Deck.deck (Deck.init shuffle numDecks))) =
    2 * Z.to_nat numDecks /\
  (forall c, In c (Deck.deck (Deck.init shuffle numDecks)) -> well_formed c).
Proof.
  intros Hsh. pose proof (createDeck_perm shuffle numDecks Hsh) as Hp.
  split; [exact Hp|split; [|split]].
  - now apply createDeck_length.
  - rewrite (Permutation_length (filter_perm _ _ _ Hp)), filter_copies.
    rewrite copies_length.
    assert (E : length (filter (fun c => py_eq (Card.suit c) (PStr "comodin")) pack) = 2)
      by reflexivity.
    rewrite E. lia.
  - now apply createDeck_well_formed.
Qed.

Lemma createDeck_contents_witness :
  Permutation (Deck.deck (Deck.init (@rev Card.t) 2)) (copies (Z.to_nat 2) pack) /\
  length (Deck.deck (Deck.init (@rev Card.t) 2)) = 54 * Z.to_nat 2 /\
  length (filter (fun c => py_eq (Card.suit c) (PStr "comodin"))
                 (Deck.deck (Deck.init (@rev Card.t) 2))) = 2 * Z.to_nat 2 /\
  (forall c, In c (Deck.deck (Deck.init (@rev Card.t) 2)) -> well_formed c).
Proof.
  apply (createDeck_contents (@rev Card.t) 2).
  intros l. apply Permutation_rev.
Defined.

(** ** Sorting and printing the deck of [numDecks] packs *)

Lemma StronglySorted_repeat_app (x : Card.t) (m : nat) (rest : list Card.t) :
  StronglySorted (kle int_key) rest -> Forall (kle int_key x) rest ->
  StronglySorted (kle int_key) (repeat x m ++ rest).
Proof.
  intros Hs Hx. induction m as [|m IH]; cbn [repeat app]; [exact Hs|].
  constructor; [exact IH|]. apply Forall_app. split; [|exact Hx].
  apply Forall_forall. intros y Hy. apply repeat_spec in Hy. subst y.
  apply leb_refl.
Qed.

Lemma copies_sorted (n : nat) (cards : list Card.t) :
  StronglySorted (kle int_key) cards ->
  StronglySorted (kle int_key) (copies n cards).
Proof.
  induction 1 as [|c cards Hs IH Hc]; [constructor|].
  rewrite copies_cons. apply StronglySorted_repeat_app; [exact IH|].
  apply Forall_forall. intros y Hy. apply copies_In in Hy.
  exact (proj1 (Forall_forall _ _) Hc y Hy).
Qed.

Lemma runs_from_repeat (c : Card.t) (m : nat) (rest : list Card.t) :
  forall count : nat,
    runs_from c count (repeat c m ++ rest) = runs_from c (count + m) rest.
Proof.
  induction m as [|m IH]; intros count; cbn [repeat app].
  - now rewrite Nat.add_0_r.
  - cbn [runs_from].
    assert (E : same_card c c = true) by now apply same_card_eq.
    rewrite E, IH. f_equal. lia.
Qed.

Lemma runs_from_copies (n : nat) (cards : list Card.t) :
  1 <= n ->
  forall (c : Card.t) (count : nat),
    Sorted (fun a b : Card.t => a <> b) (c :: cards) ->
    runs_from c count (copies n cards) = (c, count) :: map (fun x => (x, n)) cards.
Proof.
  intros Hn. induction cards as [|a cards IH]; intros c count Hs; [reflexivity|].
  inversion Hs as [|? ? Hs' Hd]; subst. inversion Hd as [|? ? Hca]; subst.
  rewrite copies_cons. destruct n as [|n]; [lia|].
  cbn [repeat app runs_from].
  assert (E : same_card a c = false) by (apply same_card_neq; congruence).
  rewrite E, runs_from_repeat, (IH a _ Hs'). reflexivity.
Qed.

Lemma print_copies (n : nat) (cards : list Card.t) (title : string) :
  1 <= n -> cards <> [] -> Sorted (fun a b : Card.t => a <> b) cards ->
  print_deck_with_duplicates (copies n cards) title =
  header title :: map (fun c => group_text c n) cards.
Proof.
  intros Hn Hne Hs. destruct cards as [|c cards]; [contradiction|].
  rewrite copies_cons. destruct n as [|n]; [lia|].
  unfold print_deck_with_duplicates. cbn [repeat app].
  rewrite print_loop_runs, runs_from_repeat, (runs_from_copies (S n)) by (lia || assumption).
  cbn [map app]. unfold run_text at 1. cbn [fst snd].
  replace (1 + n) with (S n) by lia. f_equal. f_equal.
  rewrite map_map. reflexivity.
Qed.

Lemma deck_sorts_to_copies (shuffle : list Card.t -> list Card.t)
    (numDecks max_depth : Z) :
  permutes shuffle ->
  parallel_merge_sort card_sort_key
    (Deck.deck (Deck.init shuffle numDecks)) max_depth =
    Ok (copies (Z.to_nat numDecks) pack) /\
  sorted card_sort_key (Deck.deck (Deck.init shuffle numDecks)) =
    Ok (copies (Z.to_nat numDecks) pack).
Proof.
  intros Hsh.
  pose proof (createDeck_perm shuffle numDecks Hsh) as Hp.
  pose proof (createDeck_well_formed shuffle numDecks Hsh) as Hwf.
  set (deck := Deck.deck (Deck.init shuffle numDecks)) in *.
  assert (Hsort : stable_sort int_key deck = copies (Z.to_nat numDecks) pack).
  { apply (sorted_perm_eq int_key).
    - rewrite <- (stable_sort_perm int_key deck). exact Hp.
    - apply stable_sort_sorted.
    - apply copies_sorted, pack_sorted.
    - apply well_formed_antisym. intros c Hc. apply Hwf.
      exact (Permutation_in c (Permutation_sym (stable_sort_perm int_key deck)) Hc). }
  pose proof (agree_on_well_formed deck Hwf) as Ha.
  split.
  - rewrite <- Hsort. now apply parallel_merge_sort_agree.
  - rewrite <- Hsort. now apply sorted_agree.
Qed.

(** A deck of [numDecks] packs, however shuffled, is sorted at every
    depth, as [sorted] sorts it, to the cards of the pack in ascending
    order, each [numDecks] times in a row; and the sorted deck is
    displayed as the 54 cards of the pack in that order, one line
    each. *)
Theorem deck_sorted_display (shuffle : list Card.t -> list Card.t)
    (numDecks max_depth : Z) (title : string) :
  permutes shuffle -> (1 <= numDecks)%Z ->
  parallel_merge_sort card_sort_key
    (Deck.deck (Deck.init shuffle numDecks)) max_depth =
    Ok (copies (Z.to_nat numDecks) pack) /\
  sorted card_sort_key (Deck.deck (Deck.init shuffle numDecks)) =
    Ok (copies (Z.to_nat numDecks) pack) /\
  print_deck_with_duplicates (copies (Z.to_nat numDecks) pack) title =
    header title :: map (fun c => group_text c (Z.to_nat numDecks)) pack.
Proof.
  intros Hsh Hn.
  destruct (deck_sorts_to_copies shuffle numDecks max_depth Hsh) as (Hpar & Hseq).
  split; [exact Hpar|split; [exact Hseq|]].
  apply print_copies; [lia|discriminate|apply pack_neighbours].
Qed.

Lemma deck_sorted_display_witness :
  parallel_merge_sort card_sort_key (Deck.deck (Deck.init (@rev Card.t) 2)) 3 =
    Ok (copies (Z.to_nat 2) pack) /\
  sorted card_sort_key (Deck.deck (Deck.init (@rev Card.t) 2)) =
    Ok (copies (Z.to_nat 2) pack) /\
  print_deck_with_duplicates (copies (Z.to_nat 2) pack) default_title =
    header default_title :: map (fun c => group_text c (Z.to_nat 2)) pack.
Proof.
  apply (deck_sorted_display (@rev Card.t) 2 3 default_title).
  - intros l. apply Permutation_rev.
  - lia.
Defined.

(** ** The main program *)

(** Whatever the shuffle, the number of CPUs and the depth typed (a
    negative one and an unreadable one included), the script sorts its
    3999996 cards without an exception, the parallel and the sequential
    result are the same list: the 54 cards of the pack in ascending
    order, each 74074 times in a row; the depth used is the one typed,
    or the recommended one when the text typed is no integer; and the
    deck is printed as 54 lines, each card with [(x74074)]. *)
Theorem main_run (shuffle : list Card.t -> list Card.t) (cpu_count : Z)
    (typed : option Z) :
  permutes shuffle ->
  exists r : run,
    main shuffle cpu_count typed = Ok r /\
    sorted_parallel r = copies (Z.to_nat 74074) pack /\
    sorted_sequential r = sorted_parallel r /\
    Z.of_nat (total_cards r) = 3999996%Z /\
    optimal_depth r = get_optimal_max_depth cpu_count /\
    user_depth r = match typed with
                   | Some n => n
                   | None => get_optimal_max_depth cpu_count
                   end /\
    printed r =
      header default_title ::
      map (fun c => String.append (Card_repr c) " (x74074)") pack.
Proof.
  intros Hsh. unfold main. cbv zeta.
  change (4000000 / 54)%Z with 74074%Z.
  pose proof (createDeck_length shuffle 74074 Hsh) as Hlen.
  destruct (deck_sorts_to_copies shuffle 74074
              (match typed with
               | Some n => n
               | None => get_optimal_max_depth cpu_count
               end) Hsh) as (Hpar & Hseq).
  assert (Hprint :
            print_deck_with_duplicates (copies (Z.to_nat 74074) pack) default_title =
            header default_title :: map (fun c => group_text c (Z.to_nat 74074)) pack).
  { apply print_copies; [lia|discriminate|apply pack_neighbours]. }
  rewrite Hpar, Hseq. eexists. split; [reflexivity|].
  cbn [sorted_parallel sorted_sequential total_cards optimal_depth user_depth printed].
  split; [reflexivity|split; [reflexivity|split; [|split; [reflexivity|split; [reflexivity|]]]]].
  - rewrite Hlen. lia.
  - rewrite Hprint. apply (f_equal (cons (header default_title))).
    apply map_ext. intros c. unfold group_text.
    assert (E1 : (1 <? Z.to_nat 74074) = true) by (apply Nat.ltb_lt; lia).
    assert (E2 : nat_str (Z.to_nat 74074) = "74074"%string) by (vm_compute; reflexivity).
    now rewrite E1, E2.
Qed.

Lemma main_run_witness :
  exists r : run,
    main (@rev Card.t) 8 (Some (-1)%Z) = Ok r /\
    sorted_parallel r = copies (Z.to_nat 74074) pack /\
    sorted_sequential r = sorted_parallel r /\
    Z.of_nat (total_cards r) = 3999996%Z /\
    optimal_depth r = get_optimal_max_depth 8 /\
    user_depth r = (-1)%Z /\
    printed r =
      header default_title ::
      map (fun c => String.append (Card_repr c) " (x74074)") pack.
Proof.
  apply (main_run (@rev Card.t) 8 (Some (-1)%Z)).
  intros l. apply Permutation_rev.
Defined.

(** ** How many tasks are submitted *)

Lemma submitted_tasks_eq {A : Type} (array : list A) (max_depth : Z) :
  submitted_tasks array max_depth =
  if (length array <=? 1) || (max_depth <=? 0)%Z
  then 0
  else 2 + submitted_tasks (firstn (length array / 2) array) (max_depth - 1)
         + submitted_tasks (skipn (length array / 2) array) (max_depth - 1).
Proof.
  funelim (submitted_tasks array max_depth).
  - rewrite e. reflexivity.
  - rewrite Hrec. reflexivity.
Qed.

Lemma submitted_tasks_by_length {A : Type} (max_depth : Z) :
  forall array : list A, submitted_tasks array max_depth <= 2 * (length array - 1).
Proof.
  remember (Z.to_nat max_depth) as n eqn:Hn. revert max_depth Hn.
  induction n as [n IH] using lt_wf_ind; intros max_depth Hn array.
  rewrite submitted_tasks_eq.
  destruct ((length array <=? 1) || (max_depth <=? 0)%Z) eqn:Hc; [lia|].
  apply orb_false_iff in Hc. destruct Hc as [Hl Hd].
  apply Nat.leb_gt in Hl. apply Z.leb_gt in Hd.
  assert (Hm : Z.to_nat (max_depth - 1) < n) by (subst n; lia).
  destruct (half_lt Hl) as [Hh1 Hh2].
  pose proof (IH _ Hm _ eq_refl (firstn (length array / 2) array)) as IHl.
  pose proof (IH _ Hm _ eq_refl (skipn (length array / 2) array)) as IHr.
  rewrite length_firstn in IHl. rewrite length_skipn in IHr.
  remember (length array / 2) as mid. lia.
Qed.

Lemma submitted_tasks_by_depth {A : Type} (max_depth : Z) :
  forall array : list A,
    submitted_tasks array max_depth + 2 <= 2 ^ (Z.to_nat max_depth + 1).
Proof.
  remember (Z.to_nat max_depth) as n eqn:Hn. revert max_depth Hn.
  induction n as [n IH] using lt_wf_ind; intros max_depth Hn array.
  rewrite submitted_tasks_eq.
  assert (Hpow : 2 <= 2 ^ (n + 1)).
  { rewrite Nat.pow_add_r. cbn [Nat.pow].
    pose proof (Nat.pow_nonzero 2 n). lia. }
  destruct ((length array <=? 1) || (max_depth <=? 0)%Z) eqn:Hc; [lia|].
  apply orb_false_iff in Hc. destruct Hc as [_ Hd]. apply Z.leb_gt in Hd.
  assert (Hm : Z.to_nat (max_depth - 1) < n) by (subst n; lia).
  pose proof (IH _ Hm _ eq_refl (firstn (length array / 2) array)) as IHl.
  pose proof (IH _ Hm _ eq_refl (skipn (length array / 2) array)) as IHr.
  replace (n + 1) with (S (Z.to_nat (max_depth - 1) + 1)) by (subst n; lia).
  rewrite Nat.pow_succ_r'. lia.
Qed.

Lemma get_optimal_max_depth_pow (P : Z) :
  (1 <= P)%Z ->
  (0 <= get_optimal_max_depth P)%Z /\ (2 ^ get_optimal_max_depth P <= P)%Z.
Proof.
  intros HP. unfold get_optimal_max_depth, int_log2.
  destruct (Z.ltb_spec P 2) as [Hlt|Hge].
  - split; [lia|]. change (2 ^ 0)%Z with 1%Z. exact HP.
  - split; [apply Z.log2_nonneg|]. apply Z.log2_spec. lia.
Qed.

(** The executors are given at most [2^(max_depth+1) - 2] tasks in all,
    and at most [2 * (len(array) - 1)] however large [max_depth] is;
    none exactly in the base case; and at the depth
    [get_optimal_max_depth] recommends for [P] CPUs, at most
    [2 * P - 2]. *)
Theorem submitted_tasks_bounds {A : Type} (array : list A) :
  (forall max_depth : Z,
     submitted_tasks array max_depth + 2 <= 2 ^ (Z.to_nat max_depth + 1) /\
     submitted_tasks array max_depth <= 2 * (length array - 1) /\
     (submitted_tasks array max_depth = 0 <->
      length array <= 1 \/ (max_depth <= 0)%Z)) /\
  (forall P : Z,
     (1 <= P)%Z ->
     (Z.of_nat (submitted_tasks array (get_optimal_max_depth P)) <= 2 * P - 2)%Z).
Proof.
  split.
  - intros max_depth. split; [apply submitted_tasks_by_depth|split].
    + apply submitted_tasks_by_length.
    + rewrite submitted_tasks_eq.
      destruct ((length array <=? 1) || (max_depth <=? 0)%Z) eqn:Hc.
      * split; [intros _|reflexivity].
        apply orb_true_iff in Hc. destruct Hc as [Hl|Hd].
        -- left. now apply Nat.leb_le.
        -- right. now apply Z.leb_le.
      * apply orb_false_iff in Hc. destruct Hc as [Hl Hd].
        apply Nat.leb_gt in Hl. apply Z.leb_gt in Hd. split; lia.
  - intros P HP.
    pose proof (submitted_tasks_by_depth (get_optimal_max_depth P) array) as Hb.
    destruct (get_optimal_max_depth_pow P HP) as (Hnn & Hpow).
    set (d := get_optimal_max_depth P) in *.
    assert (E : Z.of_nat (2 ^ (Z.to_nat d + 1)) = (2 * 2 ^ d)%Z).
    { rewrite Nat.add_1_r, Nat.pow_succ_r', Nat2Z.inj_mul, Nat2Z.inj_pow.
      rewrite Z2Nat.id by exact Hnn. reflexivity. }
    apply Nat2Z.inj_le in Hb. rewrite Nat2Z.inj_add, E in Hb. lia.
Qed.

Lemma submitted_tasks_bounds_witness :
  (Z.of_nat (submitted_tasks [5; 3; 9; 1; 2; 2; 4; 8; 7]%Z (get_optimal_max_depth 4))
   <= 2 * 4 - 2)%Z.
Proof.
  apply (proj2 (submitted_tasks_bounds [5; 3; 9; 1; 2; 2; 4; 8; 7]%Z) 4%Z). lia.
Defined.

(** ** No element is lost, whatever the comparisons do *)

Section Elements.

Context {A K : Type} `{PyOrd K}.
Variable key : A -> result K.

Lemma merge_loop_perm (n : nat) :
  forall (l r : list A) (i j : nat) (merged out : list A),
    (length l - i) + (length r - j) <= n ->
    merge_loop key l r i j merged = Ok out ->
    Permutation (merged ++ skipn i l ++ skipn j r) out.
Proof.
  induction n as [|n IH]; intros l r i j merged out Hn; rewrite merge_loop_eq;
    destruct ((i <? length l) && (j <? length r)) eqn:Hc;
    try (intros Hout; inversion Hout; reflexivity).
  - apply andb_true_iff in Hc. destruct Hc as [Hi Hj].
    apply Nat.ltb_lt in Hi, Hj. lia.
  - apply andb_true_iff in Hc. destruct Hc as [Hi Hj].
    apply Nat.ltb_lt in Hi, Hj.
    destruct (index_lt l i Hi) as (x & Hx & Hsx & _).
    destruct (index_lt r j Hj) as (y & Hy & Hsy & _).
    rewrite Hx, Hy.
    destruct (key x) as [kx|]; [|discriminate].
    destruct (key y) as [ky|]; [|discriminate].
    destruct (py_le kx ky) as [[|]|]; [| |discriminate]; intros Hout.
    + apply IH in Hout; [|lia]. rewrite <- Hout, Hsx, <- app_assoc. reflexivity.
    + apply IH in Hout; [|lia]. rewrite <- Hout, Hsy, <- !app_assoc.
      apply Permutation_app_head. cbn [app]. symmetry.
      apply (Permutation_middle (skipn i l) (skipn (S j) r) y).
Qed.

Lemma merge_perm (l r out : list A) :
  merge key l r = Ok out -> Permutation (l ++ r) out.
Proof.
  unfold merge. intros Hout.
  apply (merge_loop_perm (length l + length r)) in Hout; [exact Hout|lia].
Qed.

Lemma decorate_elements (array : list A) (d : list (K * A)) :
  decorate key array = Ok d -> map snd d = array.
Proof.
  revert d. induction array as [|a array IH]; intros d; cbn [decorate].
  - intros Hd. now inversion Hd.
  - destruct (key a) as [k|]; [|discriminate].
    destruct (decorate key array) as [d'|]; [|discriminate].
    intros Hd. inversion Hd. cbn [map snd]. now rewrite (IH d' eq_refl).
Qed.

Lemma insort_perm (p : K * A) (s u : list (K * A)) :
  insort p s = Ok u -> Permutation (p :: s) u.
Proof.
  revert u. induction s as [|q t IH]; intros u; cbn [insort].
  - intros Hu. now inversion Hu.
  - destruct (py_lt (fst q) (fst p)) as [[|]|]; [| |discriminate].
    + destruct (insort p t) as [u'|]; [|discriminate].
      intros Hu. inversion Hu. rewrite perm_swap. constructor. now apply IH.
    + intros Hu. now inversion Hu.
Qed.

Lemma sort_keyed_perm (d u : list (K * A)) :
  sort_keyed d = Ok u -> Permutation d u.
Proof.
  revert u. induction d as [|p t IH]; intros u; cbn [sort_keyed].
  - intros Hu. now inversion Hu.
  - destruct (sort_keyed t) as [s|]; [|discriminate].
    intros Hu. apply insort_perm in Hu. rewrite <- Hu. constructor. now apply IH.
Qed.

Lemma sorted_perm (array out : list A) :
  sorted key array = Ok out -> Permutation array out.
Proof.
  unfold sorted.
  destruct (decorate key array) as [d|] eqn:Hd; [|discriminate].
  destruct (sort_keyed d) as [s|] eqn:Hs; [|discriminate].
  intros Hout. inversion Hout. rewrite <- (decorate_elements _ _ Hd).
  apply Permutation_map. now apply sort_keyed_perm.
Qed.

End Elements.

Lemma parallel_merge_sort_perm {A K : Type} `{PyOrd K} (key : pyfun A K)
    (max_depth : Z) :
  forall array out : list A,
    parallel_merge_sort key array max_depth = Ok out -> Permutation array out.
Proof.
  remember (Z.to_nat max_depth) as n eqn:Hn. revert max_depth Hn.
  induction n as [n IH] using lt_wf_ind; intros max_depth Hn array out.
  rewrite parallel_merge_sort_eq.
  destruct ((length array <=? 1) || (max_depth <=? 0)%Z) eqn:Hc.
  - apply sorted_perm.
  - apply orb_false_iff in Hc. destruct Hc as [_ Hd]. apply Z.leb_gt in Hd.
    assert (Hm : Z.to_nat (max_depth - 1) < n) by (subst n; lia).
    cbv zeta. unfold submit. destruct (picklable key); [|discriminate].
    destruct (parallel_merge_sort key (firstn _ array) _) as [ls|] eqn:Hl;
      [|discriminate].
    destruct (parallel_merge_sort key (skipn _ array) _) as [rs|] eqn:Hr;
      [|discriminate].
    intros Hout. apply merge_perm in Hout. rewrite <- Hout.
    rewrite <- (firstn_skipn (length array / 2) array) at 1.
    apply Permutation_app; [exact (IH _ Hm _ eq_refl _ _ Hl)|exact (IH _ Hm _ eq_refl _ _ Hr)].
Qed.

(** Whatever the key function and the comparison of keys do (an order
    that is not total or not transitive included), whether the key
    function can be pickled or not, and whether the inputs are sorted
    or not, a list that [merge] returns has exactly the elements of its
    two inputs, and a list that [parallel_merge_sort] returns has
    exactly the elements of its input. *)
Theorem no_element_lost {A K : Type} `{PyOrd K} (key : pyfun A K) :
  (forall left right out : list A,
     merge key left right = Ok out ->
     Permutation (left ++ right) out /\ length out = length left + length right) /\
  (forall (array out : list A) (max_depth : Z),
     parallel_merge_sort key array max_depth = Ok out ->
     Permutation array out /\ length out = length array).
Proof.
  split.
  - intros left right out Hout. pose proof (merge_perm key _ _ _ Hout) as Hp.
    split; [exact Hp|]. now rewrite <- (Permutation_length Hp), length_app.
  - intros array out max_depth Hout.
    pose proof (parallel_merge_sort_perm key max_depth _ _ Hout) as Hp.
    split; [exact Hp|]. now rewrite (Permutation_length Hp).
Qed.

Lemma no_element_lost_witness :
  (Permutation ([3; 1] ++ [2; 0])%Z [2; 0; 3; 1]%Z /\
   length [2; 0; 3; 1]%Z = length [3; 1]%Z + length [2; 0]%Z) /\
  (Permutation [3; 1; 2]%Z [1; 2; 3]%Z /\ length [1; 2; 3]%Z = length [3; 1; 2]%Z).
Proof.
  split.
  - apply (proj1 (no_element_lost identity_key) [3; 1]%Z [2; 0]%Z). reflexivity.
  - apply (proj2 (no_element_lost (Def (fun z : Z => Ok z)))
             [3; 1; 2]%Z [1; 2; 3]%Z 2%Z).
    reflexivity.
Defined.

(** ** Where the exceptions come from *)

Section Exceptions.

Context {A K : Type} `{PyOrd K}.
Variable key : A -> result K.








End Exceptions.




(** ** The text of a card tells which card it is *)

Lemma append_inj_l (p a b : string) :
  String.append p a = String.append p b -> a = b.
Proof.
  induction p as [|c p IH]; cbn [String.append]; intros E; [exact E|].
  apply IH. now inversion E.
Qed.

Lemma py_str_int_inj (a b : Z) : py_str (PInt a) = py_str (PInt b) -> a = b.
Proof.
  cbn [py_str]. intros E. apply to_int_inj.
  assert (N : forall z, Z.to_int z <> Decimal.Pos Decimal.Nil /\
                        Z.to_int z <> Decimal.Neg Decimal.Nil).
  { intros [|q|q]; cbn; split; try discriminate; intros H; inversion H as [H1];
      exact (Unsigned.to_uint_nonnil q H1). }
  apply (f_equal NilZero.int_of_string) in E.
  rewrite !NilZero.isi in E by apply N. congruence.
Qed.

Lemma dict_key_str (d : list (pyval * Z)) (k : pyval) (v : Z) :
  Forall (fun entry => exists s : string, fst entry = PStr s) d ->
  dict_get d k = Ok v -> exists s : string, k = PStr s.
Proof.
  intros Hd Hk. apply dict_get_In in Hk.
  exact (proj1 (Forall_forall _ _) Hd _ Hk).
Qed.

Lemma suits_order_keys :
  Forall (fun entry : pyval * Z => exists s : string, fst entry = PStr s) suits_order.
Proof.
  unfold suits_order. repeat (constructor; [eexists; reflexivity|]). constructor.
Qed.

Ltac rank_cases H :=
  apply dict_get_In in H; unfold ranks_order in H; cbn [In] in H;
  repeat (destruct H as [H|H]; [inversion H; subst; clear H|]);
  try contradiction.

(** [Card.__repr__] gives different texts to different well-formed
    cards: the line printed for a card tells which card it is. *)
Theorem Card_repr_injective (c1 c2 : Card.t) :
  well_formed c1 -> well_formed c2 -> Card_repr c1 = Card_repr c2 -> c1 = c2.
Proof.
  intros (s1 & r1 & H1) (s2 & r2 & H2).
  destruct c1 as [u1 v1], c2 as [u2 v2].
  destruct (well_formed_cases _ _ _ H1) as [(Hu1 & Hv1 & _)|(Hj1 & Hu1 & Hv1 & _)];
    destruct (well_formed_cases _ _ _ H2) as [(Hu2 & Hv2 & _)|(Hj2 & Hu2 & Hv2 & _)];
    cbn [Card.suit Card.rank] in *; clear H1 H2; unfold Card_repr;
    cbn [Card.suit Card.rank]; fold comodin.
  - subst u1 u2 v1 v2. cbn [py_eq PyOrd_pyval comodin]. rewrite String.eqb_refl.
    intros E. apply append_inj_l, py_str_int_inj in E. now subst r2.
  - subst u1 v1. rewrite Hj2. cbn [py_eq PyOrd_pyval comodin]. rewrite String.eqb_refl.
    rank_cases Hv2; cbn [py_str String.append]; intros E; discriminate E.
  - subst u2 v2. rewrite Hj1. cbn [py_eq PyOrd_pyval comodin]. rewrite String.eqb_refl.
    rank_cases Hv1; cbn [py_str String.append]; intros E; discriminate E.
  - rewrite Hj1, Hj2.
    destruct (dict_key_str _ _ _ suits_order_keys Hu1) as [t1 ->].
    destruct (dict_key_str _ _ _ suits_order_keys Hu2) as [t2 ->].
    clear Hu1 Hu2 Hj1 Hj2.
    rank_cases Hv1; rank_cases Hv2; cbn [py_str String.append]; intros E;
      first [discriminate E | now inversion E].
Qed.

Lemma Card_repr_injective_witness :
  Card.mk (PStr "picas") (PStr "10") = Card.mk (PStr "picas") (PStr "10").
Proof.
  apply Card_repr_injective.
  - exists 2%Z, 10%Z. reflexivity.
  - exists 2%Z, 10%Z. reflexivity.
  - reflexivity.
Defined.

(** ** The recommended depth grows with the number of CPUs *)

(** More CPUs never lower the depth [get_optimal_max_depth]
    recommends. *)
Theorem get_optimal_max_depth_monotone (P Q : Z) :
  (P <= Q)%Z -> (get_optimal_max_depth P <= get_optimal_max_depth Q)%Z.
Proof.
  intros HPQ. unfold get_optimal_max_depth, int_log2.
  destruct (Z.ltb_spec P 2) as [HP|HP]; destruct (Z.ltb_spec Q 2) as [HQ|HQ].
  - lia.
  - apply Z.log2_nonneg.
  - lia.
  - now apply Z.log2_le_mono.
Qed.

Lemma get_optimal_max_depth_monotone_witness :
  (get_optimal_max_depth 6 <= get_optimal_max_depth 16)%Z.
Proof.
  apply get_optimal_max_depth_monotone. lia.
Defined.
